(** * Exact rational arithmetic of proj-geom-cpp: [fun::Fraction<Z>]

    A shallow embedding of the two variants of [fractions.hpp] found in the
    repository, and the properties of its specification checked against them.

    - [IntegerOps]   : [abs], [gcd_recur], [gcd], [lcm] (identical in both files)
    - [Part000]      : the variant of [src/unnamed/part_000] (GCD factoring in
                       comparison, addition and multiplication)
    - [FractionsHpp] : the variant of [src/include/projgeom/fractions.hpp]
                       (plain cross multiplication)

    The integral type parameter [Z] of the template is modelled by the
    mathematical integers: the specification leaves overflow of the underlying
    type out of scope.  C++ [/] and [%] truncate toward zero, so they are
    [Z.quot] and [Z.rem].  A division whose divisor the source guards against
    zero is written with [Z.quot] directly; the two scalar operators of
    [fractions.hpp] that divide without a guard return [option]. *)

From Stdlib Require Import ZArith Znumtheory Zdivisibility QArith Bool Lia.
From Equations Require Import Equations.

Local Open Scope Z_scope.

(* ===================================================================== *)
(** ** Integer helpers *)
(* ===================================================================== *)

Module IntegerOps.

(** [abs(a)]: [(a < T(0)) ? -a : a]. *)
Definition abs (a : Z) : Z := if a <? 0 then - a else a.

(** [gcd_recur(m, n)]: Euclid's loop; [m % n] is only evaluated when
    [n != 0].  The recursion is on [|n|], which [%] strictly decreases. *)
Equations? gcd_recur (m n : Z) : Z by wf (Z.abs_nat n) lt :=
  gcd_recur m n with Z.eq_dec n 0 := {
    | left _ => abs m
    | right _ => gcd_recur n (Z.rem m n) }.
Proof.
  pose proof (Z.rem_bound_abs m n ltac:(assumption)). lia.
Qed.

(** [gcd(m, n)]. *)
Definition gcd (m n : Z) : Z :=
  if m =? 0 then abs n else gcd_recur m n.

(** [lcm(m, n)]; the divisor [gcd(m, n)] is non-zero because [m != 0]. *)
Definition lcm (m n : Z) : Z :=
  if (m =? 0) || (n =? 0) then 0
  else (abs m ÷ gcd m n) * abs n.

End IntegerOps.

Import IntegerOps.

(* ===================================================================== *)
(** ** The data model *)
(* ===================================================================== *)

(** [struct Fraction { Z _num; Z _den; }] *)
Record Fraction : Set := mkFraction { _num : Z; _den : Z }.

(** The accessors [num()] and [den()]. *)
Definition num (f : Fraction) : Z := _num f.
Definition den (f : Fraction) : Z := _den f.

(** Canonical form (section 3 of the specification): the denominator is not
    negative and the two fields share no factor greater than one.  With a
    zero denominator the second condition says that the numerator is one of
    -1, 0, 1. *)
Definition canonical (f : Fraction) : Prop :=
  0 <= _den f /\ Z.gcd (_num f) (_den f) <= 1.

(** The rational number a fraction with a non-zero denominator stands for. *)
Definition value (f : Fraction) : Q := inject_Z (_num f) / inject_Z (_den f).

(** Checked division for the unguarded divisions of the source: [None] is a
    division by zero. *)
Definition checked_quot (a b : Z) : option Z :=
  if b =? 0 then None else Some (a ÷ b).

(* ===================================================================== *)
(** ** Variant of [src/unnamed/part_000] *)
(* ===================================================================== *)

Module Part000.

(** [normalize()] *)
Definition normalize (this : Fraction) : Fraction :=
  let this1 :=
    if _den this <? 0
    then {| _num := - _num this; _den := - _den this |}
    else this in
  let common := gcd (_num this1) (_den this1) in
  if (common =? 1) || (common =? 0) then this1
  else {| _num := _num this1 ÷ common; _den := _den this1 ÷ common |}.

(** [Fraction(Z num, Z den)] *)
Definition Fraction_ctor (num den : Z) : Fraction :=
  normalize {| _num := num; _den := den |}.

(** [Fraction(const Z& num)] *)
Definition Fraction_of_Z (num : Z) : Fraction := {| _num := num; _den := 1 |}.

(** [Fraction()] *)
Definition Fraction_default : Fraction := {| _num := 0; _den := 1 |}.

(** [cross(rhs)] *)
Definition cross (this rhs : Fraction) : Z :=
  _num this * _den rhs - _den this * _num rhs.

(** [operator==(const Z& rhs)] *)
Definition op_eq_Z (this : Fraction) (rhs : Z) : bool :=
  if (_den this =? 1) || (rhs =? 0) then _num this =? rhs
  else _num this =? _den this * rhs.

(** [operator==(const Fraction& rhs)].  The test [this == &rhs] of the source
    only short-cuts the case of one object compared with itself, where the
    next test returns [true] as well. *)
Definition op_eq (this rhs : Fraction) : bool :=
  if _den this =? _den rhs then _num this =? _num rhs
  else
    let common := gcd (_den this) (_den rhs) in
    if common =? 0 then _den rhs * _num this =? _den this * _num rhs
    else
      let l := _den this ÷ common in
      let r := _den rhs ÷ common in
      r * _num this =? l * _num rhs.

(** [operator<(const Z& rhs)] *)
Definition op_lt_Z (this : Fraction) (rhs : Z) : bool :=
  if (_den this =? 1) || (rhs =? 0) then _num this <? rhs
  else _num this <? _den this * rhs.

(** [friend operator<(const Z& lhs, const Fraction& rhs)] *)
Definition op_Z_lt (lhs : Z) (rhs : Fraction) : bool :=
  if (_den rhs =? 1) || (lhs =? 0) then lhs <? _num rhs
  else lhs * _den rhs <? _num rhs.

(** [operator<(const Fraction& rhs)] *)
Definition op_lt (this rhs : Fraction) : bool :=
  if _den this =? _den rhs then _num this <? _num rhs
  else
    let common := gcd (_den this) (_den rhs) in
    if common =? 0 then _den rhs * _num this <? _den this * _num rhs
    else
      let l := _den this ÷ common in
      let r := _den rhs ÷ common in
      r * _num this <? l * _num rhs.

(** [operator!=], [operator>], [operator>=], [operator<=] on fractions *)
Definition op_ne (this rhs : Fraction) : bool := negb (op_eq this rhs).
Definition op_gt (this rhs : Fraction) : bool := op_lt rhs this.
Definition op_ge (this rhs : Fraction) : bool := negb (op_lt this rhs).
Definition op_le (this rhs : Fraction) : bool := negb (op_lt rhs this).

(** [operator>], [operator<=], [operator>=] against an integer *)
Definition op_gt_Z (this : Fraction) (rhs : Z) : bool := op_Z_lt rhs this.
Definition op_le_Z (this : Fraction) (rhs : Z) : bool := negb (op_Z_lt rhs this).
Definition op_ge_Z (this : Fraction) (rhs : Z) : bool := negb (op_lt_Z this rhs).

(** The friends with the integer on the left: [operator==], [operator>],
    [operator<=], [operator>=] *)
Definition op_Z_eq (lhs : Z) (rhs : Fraction) : bool := op_eq_Z rhs lhs.
Definition op_Z_gt (lhs : Z) (rhs : Fraction) : bool := op_lt_Z rhs lhs.
Definition op_Z_le (lhs : Z) (rhs : Fraction) : bool := negb (op_lt_Z rhs lhs).
Definition op_Z_ge (lhs : Z) (rhs : Fraction) : bool := negb (op_Z_lt lhs rhs).

(** [reciprocal()] *)
Definition reciprocal (this : Fraction) : Fraction :=
  let swapped := {| _num := _den this; _den := _num this |} in
  if _den swapped <? 0
  then {| _num := - _num swapped; _den := - _den swapped |}
  else swapped.

(** [operator*=(const Fraction& rhs)] *)
Definition op_mul_assign (this rhs : Fraction) : Fraction :=
  let f1 := Fraction_ctor (_num this) (_den rhs) in
  let f2 := Fraction_ctor (_num rhs) (_den this) in
  {| _num := _num f1 * _num f2; _den := _den f1 * _den f2 |}.

(** [friend operator*(Fraction lhs, const Fraction& rhs)] *)
Definition op_mul (lhs rhs : Fraction) : Fraction := op_mul_assign lhs rhs.

(** [operator*=(const Z& rhs)] *)
Definition op_mul_assign_Z (this : Fraction) (rhs : Z) : Fraction :=
  let f2 := Fraction_ctor rhs (_den this) in
  {| _num := _num this * _num f2; _den := _den f2 |}.

(** [operator/=(Fraction rhs)] *)
Definition op_div_assign (this rhs : Fraction) : Fraction :=
  let f1 := Fraction_ctor (_num this) (_num rhs) in
  let f2 := Fraction_ctor (_den rhs) (_den this) in
  {| _num := _num f1 * _num f2; _den := _den f1 * _den f2 |}.

(** [friend operator/(Fraction lhs, const Fraction& rhs)] *)
Definition op_div (lhs rhs : Fraction) : Fraction := op_div_assign lhs rhs.

(** [operator/=(const Z& rhs)] *)
Definition op_div_assign_Z (this : Fraction) (rhs : Z) : Fraction :=
  let f1 := Fraction_ctor (_num this) rhs in
  {| _num := _num f1; _den := _den this * _den f1 |}.

(** [friend operator/(const Z& lhs, Fraction rhs)] *)
Definition op_Z_div (lhs : Z) (rhs : Fraction) : Fraction :=
  op_mul_assign_Z (reciprocal rhs) lhs.

(** [operator-()] *)
Definition op_neg (this : Fraction) : Fraction :=
  {| _num := - _num this; _den := _den this |}.

(** The pair [(n, d)] that [operator+] hands to the constructor. *)
Definition op_add_args (this rhs : Fraction) : Z * Z :=
  if _den this =? _den rhs then (_num this + _num rhs, _den this)
  else
    let common := gcd (_den this) (_den rhs) in
    if common =? 0 then (_den rhs * _num this + _den this * _num rhs, 0)
    else
      let l := _den this ÷ common in
      let r := _den rhs ÷ common in
      let d := _den this * r in
      let n := r * _num this + l * _num rhs in
      (n, d).

(** [operator+(const Fraction& rhs)]: every branch returns [Fraction(n, d)]. *)
Definition op_add (this rhs : Fraction) : Fraction :=
  let '(n, d) := op_add_args this rhs in Fraction_ctor n d.

(** [operator-(const Fraction& frac)] *)
Definition op_sub (this frac : Fraction) : Fraction := op_add this (op_neg frac).

(** [operator+=(const Fraction& rhs)] *)
Definition op_add_assign (this rhs : Fraction) : Fraction :=
  if _den this =? _den rhs
  then normalize {| _num := _num this + _num rhs; _den := _den this |}
  else
    let common := gcd (_den this) (_den rhs) in
    if common =? 0 then
      let n := _den rhs * _num this + _den this * _num rhs in
      {| _num := if n >? 0 then 1 else if n <? 0 then -1 else 0; _den := 0 |}
    else
      let l := _den this ÷ common in
      let r := _den rhs ÷ common in
      normalize {| _num := _num this * r + l * _num rhs; _den := _den this * r |}.

(** [operator-=(const Fraction& frac)] *)
Definition op_sub_assign (this frac : Fraction) : Fraction := op_sub this frac.

(** [operator+=(const Z& i)] *)
Definition op_add_assign_Z (this : Fraction) (i : Z) : Fraction :=
  if i =? 0 then this
  else if _den this =? 1 then {| _num := _num this + i; _den := _den this |}
  else normalize {| _num := _num this + _den this * i; _den := _den this |}.

(** [friend operator+(Fraction frac, const Z& i)] and its mirror image,
    [operator-(const Z& i)], [operator-=(const Z& i)] and the free
    [operator-(const Z& c, const Fraction& frac)] *)
Definition op_add_Z (frac : Fraction) (i : Z) : Fraction := op_add_assign_Z frac i.
Definition op_Z_add (i : Z) (frac : Fraction) : Fraction := op_add_assign_Z frac i.
Definition op_sub_Z (this : Fraction) (i : Z) : Fraction := op_add_Z this (- i).
Definition op_sub_assign_Z (this : Fraction) (i : Z) : Fraction :=
  op_add_assign_Z this (- i).
Definition op_Z_sub (c : Z) (frac : Fraction) : Fraction := op_Z_add c (op_neg frac).

(** [friend operator*(Fraction lhs, const Z& rhs)], its mirror image and
    [friend operator/(Fraction lhs, const Z& rhs)] *)
Definition op_mul_Z (lhs : Fraction) (rhs : Z) : Fraction := op_mul_assign_Z lhs rhs.
Definition op_Z_mul (lhs : Z) (rhs : Fraction) : Fraction := op_mul_assign_Z rhs lhs.
Definition op_div_Z (lhs : Fraction) (rhs : Z) : Fraction := op_div_assign_Z lhs rhs.

End Part000.

(* ===================================================================== *)
(** ** Variant of [src/include/projgeom/fractions.hpp] *)
(* ===================================================================== *)

Module FractionsHpp.

(** [normalize()]: the sign is only looked at after the early return. *)
Definition normalize (this : Fraction) : Fraction :=
  let common := gcd (_num this) (_den this) in
  if (common =? 1) || (common =? 0) then this
  else
    let common := if _den this <? 0 then - common else common in
    {| _num := _num this ÷ common; _den := _den this ÷ common |}.

(** [Fraction(Z num, Z den)] *)
Definition Fraction_ctor (num den : Z) : Fraction :=
  normalize {| _num := num; _den := den |}.

(** [Fraction(const Z& num)] and [Fraction()] *)
Definition Fraction_of_Z (num : Z) : Fraction := {| _num := num; _den := 1 |}.
Definition Fraction_default : Fraction := {| _num := 0; _den := 1 |}.

(** [operator==(const Fraction<U>& rhs)] *)
Definition op_eq (this rhs : Fraction) : bool :=
  if _den this =? _den rhs then _num this =? _num rhs
  else _num this * _den rhs =? _den this * _num rhs.

(** [operator<(const Fraction<U>& rhs)] *)
Definition op_lt (this rhs : Fraction) : bool :=
  if _den this =? _den rhs then _num this <? _num rhs
  else _num this * _den rhs <? _den this * _num rhs.

(** [operator!=], [operator>], [operator>=], [operator<=] on fractions, each
    as the source derives it *)
Definition op_ne (this rhs : Fraction) : bool := negb (op_eq this rhs).
Definition op_gt (this rhs : Fraction) : bool := negb (op_lt rhs this).
Definition op_ge (this rhs : Fraction) : bool := negb (op_lt this rhs).
Definition op_le (this rhs : Fraction) : bool := negb (op_gt rhs this).

(** [operator==(const Z& rhs)], [operator<(const Z& rhs)] and the two
    comparisons derived from the latter *)
Definition op_eq_Z (this : Fraction) (rhs : Z) : bool :=
  _num this =? _den this * rhs.
Definition op_lt_Z (this : Fraction) (rhs : Z) : bool :=
  _num this <? _den this * rhs.
Definition op_gt_Z (this : Fraction) (rhs : Z) : bool := negb (op_lt_Z this rhs).
Definition op_ge_Z (this : Fraction) (rhs : Z) : bool := negb (op_lt_Z this rhs).
(* [operator<=(const Z& rhs)] is [!(rhs < *this)] with an integer on the left
   of [<]; this file declares no such [operator<], so it has no body to
   model. *)


(** [reciprocal()]: [std::swap] and nothing else. *)
Definition reciprocal (this : Fraction) : Fraction :=
  {| _num := _den this; _den := _num this |}.

(** [operator-()] *)
Definition op_neg (this : Fraction) : Fraction :=
  {| _num := - _num this; _den := _den this |}.

(** The pair [(n, d)] that [operator+] hands to the constructor. *)
Definition op_add_args (this frac : Fraction) : Z * Z :=
  if _den this =? _den frac then (_num this + _num frac, _den this)
  else
    let d := _den this * _den frac in
    let n := _den frac * _num this + _den this * _num frac in
    (n, d).

(** [operator+(const Fraction& frac)] *)
Definition op_add (this frac : Fraction) : Fraction :=
  let '(n, d) := op_add_args this frac in Fraction_ctor n d.

(** [operator-(const Fraction& frac)] *)
Definition op_sub (this frac : Fraction) : Fraction := op_add this (op_neg frac).

(** The pair [(n, d)] that [operator*] hands to the constructor; the source
    marks the function [@todo gcd first]. *)
Definition op_mul_args (this frac : Fraction) : Z * Z :=
  let n := _num this * _num frac in
  let d := _den this * _den frac in
  (n, d).

(** [operator*(const Fraction& frac)] *)
Definition op_mul (this frac : Fraction) : Fraction :=
  let '(n, d) := op_mul_args this frac in Fraction_ctor n d.

(** [operator/(Fraction frac)] *)
Definition op_div (this frac : Fraction) : Fraction :=
  let frac := reciprocal frac in
  op_mul this frac.

(** [operator+(const Z& i)] and [operator-(const Z& i)] *)
Definition op_add_Z (this : Fraction) (i : Z) : Fraction :=
  let n := _num this + _den this * i in
  Fraction_ctor n (_den this).
Definition op_sub_Z (this : Fraction) (i : Z) : Fraction := op_add_Z this (- i).

(** The free [operator+(const Z& c, const Fraction<Z>& frac)] and
    [operator-(const Z& c, const Fraction<Z>& frac)] *)
Definition op_Z_add (c : Z) (frac : Fraction) : Fraction := op_add_Z frac c.
Definition op_Z_sub (c : Z) (frac : Fraction) : Fraction := op_Z_add c (op_neg frac).

(** The compound assignments on fractions: [*this = *this op frac]. *)
Definition op_add_assign (this frac : Fraction) : Fraction := op_add this frac.
Definition op_sub_assign (this frac : Fraction) : Fraction := op_sub this frac.
Definition op_mul_assign (this frac : Fraction) : Fraction := op_mul this frac.
Definition op_div_assign (this frac : Fraction) : Fraction := op_div this frac.
Definition op_add_assign_Z (this : Fraction) (i : Z) : Fraction := op_add_Z this i.
Definition op_sub_assign_Z (this : Fraction) (i : Z) : Fraction := op_sub_Z this i.

(** [operator*=(const Z& i)]: the [else] branch divides by [common] whatever
    its value; the branch for [common == 0] is commented out in the source. *)
Definition op_mul_assign_Z (this : Fraction) (i : Z) : option Fraction :=
  let common := gcd i (_den this) in
  if common =? 1 then Some {| _num := _num this * i; _den := _den this |}
  else
    match checked_quot i common, checked_quot (_den this) common with
    | Some q, Some d => Some {| _num := _num this * q; _den := d |}
    | _, _ => None
    end.

(** [operator/=(const Z& i)], written the same way. *)
Definition op_div_assign_Z (this : Fraction) (i : Z) : option Fraction :=
  let common := gcd (_num this) i in
  if common =? 1 then Some {| _num := _num this; _den := _den this * i |}
  else
    match checked_quot i common, checked_quot (_num this) common with
    | Some q, Some n => Some {| _num := n; _den := _den this * q |}
    | _, _ => None
    end.

(** [friend operator*(Fraction f, const Z& i)] *)
Definition op_mul_Z (f : Fraction) (i : Z) : option Fraction := op_mul_assign_Z f i.

End FractionsHpp.

(* ===================================================================== *)
(** ** The scenarios of the specification, run on both variants *)
(* ===================================================================== *)

Example scenario_1 :
  Part000.Fraction_ctor 4 8 = mkFraction 1 2 /\
  FractionsHpp.Fraction_ctor 4 8 = mkFraction 1 2.
Proof. split; reflexivity. Qed.

Example scenario_2 :
  Part000.Fraction_ctor 3 (-6) = mkFraction (-1) 2 /\
  FractionsHpp.Fraction_ctor 3 (-6) = mkFraction (-1) 2.
Proof. split; reflexivity. Qed.

Example scenario_3 :
  Part000.op_mul (mkFraction 1 2) (mkFraction 2 3) = mkFraction 1 3 /\
  FractionsHpp.op_mul (mkFraction 1 2) (mkFraction 2 3) = mkFraction 1 3.
Proof. split; reflexivity. Qed.

Example scenario_4 :
  Part000.op_div (mkFraction 1 2) (mkFraction 1 4) = mkFraction 2 1 /\
  FractionsHpp.op_div (mkFraction 1 2) (mkFraction 1 4) = mkFraction 2 1.
Proof. split; reflexivity. Qed.

Example scenario_5 :
  Part000.op_add (mkFraction 1 3) (mkFraction 1 6) = mkFraction 1 2 /\
  FractionsHpp.op_add (mkFraction 1 3) (mkFraction 1 6) = mkFraction 1 2.
Proof. split; reflexivity. Qed.

Example scenario_6 :
  Part000.op_lt (mkFraction 1 2) (mkFraction 2 3) = true /\
  Part000.op_lt (mkFraction 2 3) (mkFraction 1 2) = false.
Proof. split; reflexivity. Qed.

(* ===================================================================== *)
(** ** Facts about the integer helpers *)
(* ===================================================================== *)

Section IntegerOpsFacts.

Lemma abs_spec a : abs a = Z.abs a.
Proof. unfold abs. destruct (Z.ltb_spec a 0); lia. Qed.

Lemma abs_nonneg a : 0 <= abs a.
Proof. rewrite abs_spec. apply Z.abs_nonneg. Qed.

Lemma gcd_recur_0_r m : gcd_recur m 0 = abs m.
Proof. now simp gcd_recur. Qed.

Lemma gcd_recur_step m n : n <> 0 -> gcd_recur m n = gcd_recur n (Z.rem m n).
Proof.
  intros Hn. rewrite gcd_recur_equation_1.
  destruct (Z.eq_dec n 0) as [E|E]; [contradiction | reflexivity].
Qed.

(** One step of Euclid's algorithm with the truncating remainder keeps the
    set of common divisors. *)
Lemma Zgcd_rem m n : Z.gcd n (Z.rem m n) = Z.gcd m n.
Proof.
  destruct (Z.eq_dec n 0) as [->|Hn].
  - replace (Z.rem m 0) with m by (now destruct m). apply Z.gcd_comm.
  - pose proof (Z.quot_rem' m n) as E.
    replace (Z.rem m n) with (m + (- (m ÷ n)) * n) by lia.
    rewrite Z.gcd_add_mult_diag_r. apply Z.gcd_comm.
Qed.

Lemma gcd_recur_spec m n : gcd_recur m n = Z.gcd m n.
Proof.
  funelim (gcd_recur m n).
  - subst. rewrite abs_spec. now rewrite Z.gcd_0_r.
  - match goal with IH : gcd_recur _ _ = Z.gcd _ _ |- _ => rewrite IH end.
    apply Zgcd_rem.
Qed.

Lemma gcd_spec m n : gcd m n = Z.gcd m n.
Proof.
  unfold gcd. destruct (Z.eqb_spec m 0) as [->|Hm].
  - rewrite abs_spec. symmetry. apply Z.gcd_0_l.
  - apply gcd_recur_spec.
Qed.

Lemma gcd_nonneg m n : 0 <= gcd m n.
Proof. rewrite gcd_spec. apply Z.gcd_nonneg. Qed.

Lemma gcd_eq_0 m n : gcd m n = 0 <-> m = 0 /\ n = 0.
Proof.
  rewrite gcd_spec. split.
  - intros H. split; [eapply Z.gcd_eq_0_l | eapply Z.gcd_eq_0_r]; eassumption.
  - intros [-> ->]. reflexivity.
Qed.

Lemma gcd_comm m n : gcd m n = gcd n m.
Proof. rewrite !gcd_spec. apply Z.gcd_comm. Qed.

End IntegerOpsFacts.

Section ArithmeticFacts.

Lemma gcd_le1_cases a b : Z.gcd a b <= 1 -> (a = 0 /\ b = 0) \/ Z.gcd a b = 1.
Proof.
  intros H. pose proof (Z.gcd_nonneg a b).
  assert (Z.gcd a b = 0 \/ Z.gcd a b = 1) as [E|E] by lia; [left | now right].
  split; [eapply Z.gcd_eq_0_l | eapply Z.gcd_eq_0_r]; eassumption.
Qed.

Lemma gcd_le1_mul n1 d1 n2 d2 :
  Z.gcd n1 d1 <= 1 -> Z.gcd n2 d2 <= 1 ->
  Z.gcd n1 d2 <= 1 -> Z.gcd n2 d1 <= 1 ->
  Z.gcd (n1 * n2) (d1 * d2) <= 1.
Proof.
  intros H11 H22 H12 H21.
  destruct (gcd_le1_cases _ _ H11) as [[-> ->]|C11]; [now cbn|].
  destruct (gcd_le1_cases _ _ H22) as [[-> ->]|C22]; [now rewrite !Z.mul_0_r|].
  destruct (gcd_le1_cases _ _ H12) as [[-> ->]|C12]; [now rewrite Z.mul_0_r|].
  destruct (gcd_le1_cases _ _ H21) as [[-> ->]|C21]; [now rewrite Z.mul_0_r|].
  enough (Z.gcd (n1 * n2) (d1 * d2) = 1) by lia.
  apply Z.coprime_mul_l; apply Z.coprime_mul_r; assumption.
Qed.

Lemma gcd_le1_factors g1 g2 n d :
  0 < g1 -> 0 < g2 -> Z.gcd (g1 * n) (g2 * d) <= 1 -> Z.gcd n d <= 1.
Proof.
  intros H1 H2 H.
  destruct (gcd_le1_cases _ _ H) as [[En Ed]|C].
  - assert (n = 0) as -> by nia. assert (d = 0) as -> by nia. now cbn.
  - assert (D : (Z.gcd n d | 1)).
    { rewrite <- C. apply Z.gcd_greatest.
      - apply Z.divide_mul_r, Z.gcd_divide_l.
      - apply Z.divide_mul_r, Z.gcd_divide_r. }
    pose proof (Z.gcd_nonneg n d).
    apply Z.divide_1_r_nonneg in D; lia.
Qed.

Lemma quot_gcd_factors n d :
  Z.gcd n d <> 0 ->
  n = Z.gcd n d * (n ÷ Z.gcd n d) /\ d = Z.gcd n d * (d ÷ Z.gcd n d) /\
  Z.gcd (n ÷ Z.gcd n d) (d ÷ Z.gcd n d) = 1.
Proof.
  intros Hg. split; [|split].
  - destruct (Z.gcd_divide_l n d) as [k Hk].
    remember (Z.gcd n d) as g. clear Heqg.
    rewrite Hk, Z.quot_mul by assumption. lia.
  - destruct (Z.gcd_divide_r n d) as [k Hk].
    remember (Z.gcd n d) as g. clear Heqg.
    rewrite Hk, Z.quot_mul by assumption. lia.
  - now apply Z.gcd_quot_gcd.
Qed.

Lemma inject_Z_neq_0 d : d <> 0 -> ~ (inject_Z d == 0)%Q.
Proof. intros H E. apply H. unfold Qeq in E. cbn in E. lia. Qed.

Lemma Qdiv_inject_eq_iff n1 d1 n2 d2 :
  d1 <> 0 -> d2 <> 0 ->
  (inject_Z n1 / inject_Z d1 == inject_Z n2 / inject_Z d2)%Q <-> n1 * d2 = n2 * d1.
Proof.
  intros H1 H2.
  pose proof (inject_Z_neq_0 d1 H1) as Q1. pose proof (inject_Z_neq_0 d2 H2) as Q2.
  split; intros H.
  - assert (E : (inject_Z n1 * inject_Z d2 == inject_Z n2 * inject_Z d1)%Q).
    { transitivity (inject_Z n1 / inject_Z d1 * (inject_Z d1 * inject_Z d2))%Q;
        [field; assumption|].
      rewrite H. field; assumption. }
    rewrite <- !inject_Z_mult in E. unfold Qeq in E. cbn in E. lia.
  - assert (E : (inject_Z n1 * inject_Z d2 == inject_Z n2 * inject_Z d1)%Q).
    { rewrite <- !inject_Z_mult. now rewrite H. }
    transitivity ((inject_Z n1 * inject_Z d2) / (inject_Z d1 * inject_Z d2))%Q; [field; tauto|].
    rewrite E. field; tauto.
Qed.

Lemma Qdiv_inject_add n1 d1 n2 d2 :
  d1 <> 0 -> d2 <> 0 ->
  (inject_Z n1 / inject_Z d1 + inject_Z n2 / inject_Z d2 ==
   inject_Z (n1 * d2 + n2 * d1) / inject_Z (d1 * d2))%Q.
Proof.
  intros H1 H2.
  pose proof (inject_Z_neq_0 d1 H1) as Q1. pose proof (inject_Z_neq_0 d2 H2) as Q2.
  rewrite inject_Z_plus, !inject_Z_mult. field; tauto.
Qed.

Lemma Qdiv_inject_mul n1 d1 n2 d2 :
  d1 <> 0 -> d2 <> 0 ->
  ((inject_Z n1 / inject_Z d1) * (inject_Z n2 / inject_Z d2) ==
   inject_Z (n1 * n2) / inject_Z (d1 * d2))%Q.
Proof.
  intros H1 H2.
  pose proof (inject_Z_neq_0 d1 H1) as Q1. pose proof (inject_Z_neq_0 d2 H2) as Q2.
  rewrite !inject_Z_mult. field; tauto.
Qed.

End ArithmeticFacts.

(* ===================================================================== *)
(** ** The canonical form is unique *)
(* ===================================================================== *)

Section CanonicalForm.

(** Two fractions in canonical form with positive denominators and the same
    rational value are the same pair. *)
Lemma canonical_unique x y :
  canonical x -> canonical y -> 0 < _den x -> 0 < _den y ->
  _num x * _den y = _num y * _den x -> x = y.
Proof.
  intros [_ Gx] [_ Gy] Hx Hy E.
  destruct (gcd_le1_cases _ _ Gx) as [[_ Zx]|Cx]; [lia|].
  destruct (gcd_le1_cases _ _ Gy) as [[_ Zy]|Cy]; [lia|].
  assert (Dxy : (_den x | _den y)).
  { apply (Z.gauss _ (_num x)).
    - exists (_num y). lia.
    - now rewrite Z.gcd_comm. }
  assert (Dyx : (_den y | _den x)).
  { apply (Z.gauss _ (_num y)).
    - exists (_num x). lia.
    - now rewrite Z.gcd_comm. }
  assert (Ed : _den x = _den y) by (apply Z.divide_antisym_nonneg; trivial; lia).
  rewrite Ed in E. apply Z.mul_cancel_r in E; [|lia].
  destruct x, y. cbn [_num _den] in *. congruence.
Qed.

(** With a zero denominator the canonical form only records a sign. *)
Lemma canonical_zero_unique x y :
  canonical x -> canonical y -> _den x = 0 -> _den y = 0 ->
  Z.sgn (_num x) = Z.sgn (_num y) -> x = y.
Proof.
  intros [_ Gx] [_ Gy] Ex Ey E.
  rewrite Ex, Z.gcd_0_r in Gx. rewrite Ey, Z.gcd_0_r in Gy.
  destruct x, y. cbn [_num _den] in *. f_equal; lia.
Qed.

End CanonicalForm.

Module Part000Facts.
Import Part000.

(** What [normalize] computes when the denominator is not negative. *)
Lemma normalize_nonneg n d :
  0 <= d ->
  exists g, 0 < g /\ (Z.gcd n d <> 0 -> g = Z.gcd n d) /\
    n = g * _num (Fraction_ctor n d) /\
    d = g * _den (Fraction_ctor n d) /\
    canonical (Fraction_ctor n d).
Proof.
  intros Hd. unfold Fraction_ctor, normalize, canonical. cbn [_num _den].
  destruct (Z.ltb_spec d 0) as [Hneg|_]; [lia|]. cbn [_num _den].
  rewrite gcd_spec. pose proof (Z.gcd_nonneg n d) as Hg.
  destruct (Z.eqb_spec (Z.gcd n d) 1) as [E1|N1]; cbn [orb _num _den].
  - exists 1. rewrite E1. repeat split; lia.
  - destruct (Z.eqb_spec (Z.gcd n d) 0) as [E0|N0]; cbn [_num _den].
    + exists 1. rewrite E0. repeat split; lia.
    + destruct (quot_gcd_factors n d N0) as (En & Ed & Eg).
      exists (Z.gcd n d). repeat split; try lia.
Qed.

Lemma ctor_flip n d : d < 0 -> Fraction_ctor n d = Fraction_ctor (- n) (- d).
Proof.
  intros Hd. unfold Fraction_ctor, normalize. cbn [_num _den].
  destruct (Z.ltb_spec d 0); [|lia].
  destruct (Z.ltb_spec (- d) 0); [lia|]. reflexivity.
Qed.

(** The constructor divides both fields by one positive number, after moving
    the sign of the denominator to the numerator, and its result is in
    canonical form. *)
Lemma ctor_decomp n d :
  exists g, 0 < g /\ (Z.gcd n d <> 0 -> g = Z.gcd n d) /\
    (if d <? 0 then - n else n) = g * _num (Fraction_ctor n d) /\
    Z.abs d = g * _den (Fraction_ctor n d) /\
    canonical (Fraction_ctor n d).
Proof.
  destruct (Z.ltb_spec d 0) as [Hd|Hd].
  - rewrite (ctor_flip n d Hd).
    destruct (normalize_nonneg (- n) (- d)) as (g & Hg & Hgcd & En & Ed & Hc); [lia|].
    exists g. rewrite Z.gcd_opp_l, Z.gcd_opp_r in Hgcd.
    repeat split; try assumption; try apply Hc. lia.
  - destruct (normalize_nonneg n d Hd) as (g & Hg & Hgcd & En & Ed & Hc).
    exists g. repeat split; try assumption; try apply Hc. lia.
Qed.

Lemma ctor_canonical n d : canonical (Fraction_ctor n d).
Proof. destruct (ctor_decomp n d) as (g & _ & _ & _ & _ & Hc). exact Hc. Qed.

Lemma normalize_canonical f : canonical (normalize f).
Proof. destruct f as [n d]. apply (ctor_canonical n d). Qed.

Lemma ctor_den_eq_0 n d : _den (Fraction_ctor n d) = 0 <-> d = 0.
Proof.
  destruct (ctor_decomp n d) as (g & Hg & _ & _ & Ed & _). split; intros H.
  - rewrite H in Ed. lia.
  - subst d. cbn in Ed. nia.
Qed.

Lemma ctor_num_eq_0 n d : _num (Fraction_ctor n d) = 0 <-> n = 0.
Proof.
  destruct (ctor_decomp n d) as (g & Hg & _ & En & _ & _). split; intros H.
  - rewrite H in En. destruct (d <? 0); lia.
  - subst n. assert (g * _num (Fraction_ctor 0 d) = 0) by (destruct (d <? 0); lia). nia.
Qed.

(** A fraction in canonical form is left alone by [normalize]. *)
Lemma normalize_id f : canonical f -> normalize f = f.
Proof.
  destruct f as [n d]. unfold canonical, normalize. cbn [_num _den]. intros [Hd Hg].
  destruct (Z.ltb_spec d 0); [lia|]. cbn [_num _den]. rewrite gcd_spec.
  pose proof (Z.gcd_nonneg n d).
  destruct (Z.eqb_spec (Z.gcd n d) 1); [reflexivity|].
  destruct (Z.eqb_spec (Z.gcd n d) 0); [reflexivity|]. lia.
Qed.

Lemma ctor_opp_num n d : Fraction_ctor (- n) d = op_neg (Fraction_ctor n d).
Proof.
  unfold Fraction_ctor, normalize, op_neg. cbn [_num _den].
  destruct (d <? 0); cbn [_num _den]; rewrite !gcd_spec, !Z.gcd_opp_l.
  - destruct ((Z.gcd n (- d) =? 1) || (Z.gcd n (- d) =? 0)) eqn:E;
      cbn [_num _den]; [reflexivity|].
    apply orb_false_elim in E. destruct E as [_ E%Z.eqb_neq].
    f_equal. now apply Z.quot_opp_l.
  - destruct ((Z.gcd n d =? 1) || (Z.gcd n d =? 0)) eqn:E;
      cbn [_num _den]; [reflexivity|].
    apply orb_false_elim in E. destruct E as [_ E%Z.eqb_neq].
    f_equal. now apply Z.quot_opp_l.
Qed.

Lemma ctor_opp_den n d :
  d <> 0 -> Fraction_ctor n (- d) = op_neg (Fraction_ctor n d).
Proof.
  intros Hd. rewrite <- ctor_opp_num.
  destruct (Z.ltb_spec d 0).
  - rewrite (ctor_flip (- n) d) by lia. now rewrite Z.opp_involutive.
  - rewrite (ctor_flip n (- d)) by lia. now rewrite Z.opp_involutive.
Qed.

(** A zero denominator keeps only the sign of the numerator. *)
Lemma ctor_zero_den n : Fraction_ctor n 0 = {| _num := Z.sgn n; _den := 0 |}.
Proof.
  unfold Fraction_ctor, normalize. cbn [_num _den Z.ltb Z.compare].
  rewrite gcd_spec, Z.gcd_0_r.
  destruct (Z.eqb_spec (Z.abs n) 1); cbn [orb].
  - f_equal. lia.
  - destruct (Z.eqb_spec (Z.abs n) 0).
    + f_equal. lia.
    + f_equal. rewrite <- (Z.abs_sgn n) at 1.
      rewrite Z.mul_comm. rewrite Z.quot_mul by assumption. reflexivity.
Qed.


Lemma ctor_cross n d :
  _num (Fraction_ctor n d) * d = n * _den (Fraction_ctor n d).
Proof.
  destruct (ctor_decomp n d) as (g & Hg & _ & En & Ed & _).
  destruct (Z.ltb_spec d 0); nia.
Qed.

Lemma ctor_den_pos n d : d <> 0 -> 0 < _den (Fraction_ctor n d).
Proof.
  intros Hd. pose proof (ctor_canonical n d) as [H0 _].
  pose proof (ctor_den_eq_0 n d). lia.
Qed.

Lemma ctor_value n d :
  d <> 0 -> (value (Fraction_ctor n d) == inject_Z n / inject_Z d)%Q.
Proof.
  intros Hd. unfold value. apply Qdiv_inject_eq_iff; trivial.
  - pose proof (ctor_den_pos n d Hd). lia.
  - apply ctor_cross.
Qed.

(** A common positive factor of the two arguments does not change the
    fraction that the constructor builds. *)
Lemma ctor_scale c n d :
  0 < c -> Fraction_ctor (c * n) (c * d) = Fraction_ctor n d.
Proof.
  intros Hc. destruct (Z.eq_dec d 0) as [->|Hd].
  - rewrite Z.mul_0_r, !ctor_zero_den. f_equal.
    rewrite Z.sgn_mul, (Z.sgn_pos c Hc). ring.
  - assert (Hcd : c * d <> 0) by nia.
    apply canonical_unique; try apply ctor_canonical; try now apply ctor_den_pos.
    pose proof (ctor_cross (c * n) (c * d)) as E1.
    pose proof (ctor_cross n d) as E2.
    remember (Fraction_ctor (c * n) (c * d)) as f1.
    remember (Fraction_ctor n d) as f2.
    apply (Z.mul_cancel_r _ _ (c * d) Hcd).
    transitivity ((_num f1 * (c * d)) * _den f2); [ring|].
    rewrite E1.
    transitivity (c * (_num f2 * d) * _den f1); [rewrite E2|]; ring.
Qed.

(** *** Addition *)

(** Different denominators are not both zero: the branch [common == 0] of
    [operator+] and [operator+=] is never taken. *)
Lemma gcd_den_neq_0 a b : _den a <> _den b -> gcd (_den a) (_den b) <> 0.
Proof. intros Hne E. apply gcd_eq_0 in E. lia. Qed.

Lemma op_add_args_same_den a b :
  _den a = _den b -> op_add_args a b = (_num a + _num b, _den a).
Proof. intros E. unfold op_add_args. now rewrite E, Z.eqb_refl. Qed.

Lemma op_add_args_factored a b :
  _den a <> _den b ->
  op_add_args a b =
    ((_den b ÷ gcd (_den a) (_den b)) * _num a +
     (_den a ÷ gcd (_den a) (_den b)) * _num b,
     _den a * (_den b ÷ gcd (_den a) (_den b))).
Proof.
  intros Hne. unfold op_add_args.
  destruct (Z.eqb_spec (_den a) (_den b)); [contradiction|].
  pose proof (gcd_den_neq_0 a b Hne).
  destruct (Z.eqb_spec (gcd (_den a) (_den b)) 0); [contradiction|]. reflexivity.
Qed.

Lemma quot_gcd_den a b :
  gcd (_den a) (_den b) <> 0 ->
  _den a = gcd (_den a) (_den b) * (_den a ÷ gcd (_den a) (_den b)) /\
  _den b = gcd (_den a) (_den b) * (_den b ÷ gcd (_den a) (_den b)).
Proof.
  rewrite gcd_spec. intros H.
  destruct (quot_gcd_factors _ _ H) as (E1 & E2 & _). now split.
Qed.

(** The pair handed to the constructor stands for the sum of the operands. *)
Lemma op_add_args_exact a b :
  _den a <> 0 -> _den b <> 0 ->
  snd (op_add_args a b) <> 0 /\
  fst (op_add_args a b) * (_den a * _den b) =
    (_num a * _den b + _num b * _den a) * snd (op_add_args a b).
Proof.
  intros Ha Hb. destruct (Z.eq_dec (_den a) (_den b)) as [E|Hne].
  - rewrite (op_add_args_same_den a b E). cbn [fst snd]. split; [assumption|].
    rewrite <- E. ring.
  - rewrite (op_add_args_factored a b Hne). cbn [fst snd].
    destruct (quot_gcd_den a b (gcd_den_neq_0 a b Hne)) as [E1 E2].
    remember (gcd (_den a) (_den b)) as c.
    remember (_den a ÷ c) as l. remember (_den b ÷ c) as r.
    split.
    + intros E. apply Z.mul_eq_0 in E. destruct E as [E|E]; [lia|].
      rewrite E in E2. lia.
    + clear Heqc Heql Heqr. rewrite E1, E2. ring.
Qed.

Lemma op_add_value a b :
  _den a <> 0 -> _den b <> 0 ->
  0 < _den (op_add a b) /\ (value (op_add a b) == value a + value b)%Q.
Proof.
  intros Ha Hb. destruct (op_add_args_exact a b Ha Hb) as [Hd Hx].
  unfold op_add. destruct (op_add_args a b) as [n d]. cbn [fst snd] in *.
  split; [now apply ctor_den_pos|].
  rewrite (ctor_value n d Hd). unfold value.
  rewrite Qdiv_inject_add by assumption.
  apply Qdiv_inject_eq_iff; [assumption | nia | exact Hx].
Qed.

Lemma op_add_canonical a b : canonical (op_add a b).
Proof. unfold op_add. destruct (op_add_args a b). apply ctor_canonical. Qed.

(** [operator+=] computes what [operator+] returns. *)
Lemma op_add_assign_eq a b : op_add_assign a b = op_add a b.
Proof.
  unfold op_add_assign, op_add, op_add_args.
  destruct (Z.eqb_spec (_den a) (_den b)) as [E|Hne]; [reflexivity|].
  pose proof (gcd_den_neq_0 a b Hne).
  destruct (Z.eqb_spec (gcd (_den a) (_den b)) 0); [contradiction|].
  unfold Fraction_ctor. do 2 f_equal. ring.
Qed.


(** *** Multiplication *)

(** With a denominator that is not negative the constructor divides both
    arguments by their greatest common divisor ([0 ÷ 0] is [0], the only case
    with a zero divisor, where the source does not divide at all). *)
Lemma ctor_reduced n d :
  0 <= d ->
  Fraction_ctor n d = {| _num := n ÷ Z.gcd n d; _den := d ÷ Z.gcd n d |}.
Proof.
  intros Hd. unfold Fraction_ctor, normalize. cbn [_num _den].
  destruct (Z.ltb_spec d 0); [lia|]. cbn [_num _den]. rewrite gcd_spec.
  destruct (Z.eqb_spec (Z.gcd n d) 1) as [E|_]; cbn [orb].
  - now rewrite E, !Z.quot_1_r.
  - destruct (Z.eqb_spec (Z.gcd n d) 0) as [E|_]; [|reflexivity].
    rewrite E. apply Z.gcd_eq_0 in E. destruct E as [-> ->]. reflexivity.
Qed.

Lemma op_mul_reduced a b :
  canonical a -> canonical b ->
  op_mul a b =
    {| _num := (_num a ÷ Z.gcd (_num a) (_den b)) * (_num b ÷ Z.gcd (_num b) (_den a));
       _den := (_den b ÷ Z.gcd (_num a) (_den b)) * (_den a ÷ Z.gcd (_num b) (_den a)) |}.
Proof.
  intros [Ha _] [Hb _]. unfold op_mul, op_mul_assign.
  now rewrite (ctor_reduced (_num a) (_den b) Hb), (ctor_reduced (_num b) (_den a) Ha).
Qed.

Lemma op_mul_canonical a b :
  canonical a -> canonical b -> canonical (op_mul a b).
Proof.
  intros [Ha Ga] [Hb Gb]. unfold op_mul, op_mul_assign.
  destruct (ctor_decomp (_num a) (_den b)) as (g1 & Hg1 & _ & En1 & Ed1 & [P1 C1]).
  destruct (ctor_decomp (_num b) (_den a)) as (g2 & Hg2 & _ & En2 & Ed2 & [P2 C2]).
  destruct (Z.ltb_spec (_den b) 0); [lia|]. destruct (Z.ltb_spec (_den a) 0); [lia|].
  rewrite Z.abs_eq in Ed1, Ed2 by assumption.
  split; cbn [_num _den]; [nia|].
  apply gcd_le1_mul; trivial.
  - apply (gcd_le1_factors g1 g2); trivial. now rewrite <- En1, <- Ed2.
  - apply (gcd_le1_factors g2 g1); trivial. now rewrite <- En2, <- Ed1.
Qed.

Lemma op_mul_cross a b :
  _num (op_mul a b) * (_den a * _den b) = (_num a * _num b) * _den (op_mul a b).
Proof.
  unfold op_mul, op_mul_assign. cbn [_num _den].
  pose proof (ctor_cross (_num a) (_den b)) as E1.
  pose proof (ctor_cross (_num b) (_den a)) as E2.
  remember (Fraction_ctor (_num a) (_den b)) as f1.
  remember (Fraction_ctor (_num b) (_den a)) as f2.
  transitivity ((_num f1 * _den b) * (_num f2 * _den a)); [ring|].
  rewrite E1, E2. ring.
Qed.

Lemma op_mul_value a b :
  _den a <> 0 -> _den b <> 0 ->
  0 < _den (op_mul a b) /\ (value (op_mul a b) == value a * value b)%Q.
Proof.
  intros Ha Hb.
  assert (Hpos : 0 < _den (op_mul a b)).
  { unfold op_mul, op_mul_assign. cbn [_den].
    pose proof (ctor_den_pos (_num a) (_den b) Hb).
    pose proof (ctor_den_pos (_num b) (_den a) Ha). nia. }
  split; [exact Hpos|]. unfold value at 2 3.
  rewrite Qdiv_inject_mul by assumption.
  apply Qdiv_inject_eq_iff; [lia | nia | apply op_mul_cross].
Qed.

(** *** Reciprocal and division *)

Lemma reciprocal_spec a :
  reciprocal a =
    if _num a <? 0 then {| _num := - _den a; _den := - _num a |}
    else {| _num := _den a; _den := _num a |}.
Proof. reflexivity. Qed.

Lemma reciprocal_den_nonneg a : 0 <= _den (reciprocal a).
Proof.
  rewrite reciprocal_spec. destruct (Z.ltb_spec (_num a) 0); cbn [_den]; lia.
Qed.

Lemma reciprocal_canonical a : canonical a -> canonical (reciprocal a).
Proof.
  intros [_ G]. split; [apply reciprocal_den_nonneg|].
  rewrite reciprocal_spec. destruct (_num a <? 0); cbn [_num _den].
  - now rewrite Z.gcd_opp_l, Z.gcd_opp_r, Z.gcd_comm.
  - now rewrite Z.gcd_comm.
Qed.

(** [operator/=] computes the product with the reciprocal. *)
Lemma op_div_eq a b : op_div a b = op_mul a (reciprocal b).
Proof.
  unfold op_div, op_div_assign, op_mul, op_mul_assign. rewrite reciprocal_spec.
  destruct (Z.ltb_spec (_num b) 0) as [Hneg|_]; cbn [_num _den]; [|reflexivity].
  rewrite (ctor_opp_den (_num a) (_num b)) by lia.
  rewrite (ctor_opp_num (_den b) (_den a)).
  unfold op_neg. cbn [_num _den]. f_equal. ring.
Qed.

Lemma op_div_canonical a b :
  canonical a -> canonical b -> canonical (op_div a b).
Proof.
  intros Ha Hb. rewrite op_div_eq.
  apply op_mul_canonical; [assumption | now apply reciprocal_canonical].
Qed.

(** *** Negation, subtraction and the operators with an integer operand *)

Lemma op_neg_canonical a : canonical a -> canonical (op_neg a).
Proof.
  intros [H G]. split; cbn [op_neg _num _den]; [assumption|].
  now rewrite Z.gcd_opp_l.
Qed.

Lemma op_sub_canonical a b : canonical (op_sub a b).
Proof. apply op_add_canonical. Qed.

Lemma of_Z_canonical n : canonical (Fraction_of_Z n).
Proof. split; cbn [Fraction_of_Z _num _den]; [lia|]. rewrite Z.gcd_1_r. lia. Qed.

Lemma op_add_assign_Z_canonical a i :
  canonical a -> canonical (op_add_assign_Z a i).
Proof.
  intros Ha. unfold op_add_assign_Z.
  destruct (i =? 0); [assumption|].
  destruct (Z.eqb_spec (_den a) 1) as [E|_]; [|apply normalize_canonical].
  split; cbn [_num _den]; [lia|]. rewrite E, Z.gcd_1_r. lia.
Qed.

Lemma op_mul_assign_Z_canonical a i :
  canonical a -> canonical (op_mul_assign_Z a i).
Proof.
  intros [Ha Ga]. unfold op_mul_assign_Z.
  destruct (ctor_decomp i (_den a)) as (g & Hg & _ & En & Ed & [P C]).
  destruct (Z.ltb_spec (_den a) 0); [lia|]. rewrite Z.abs_eq in Ed by assumption.
  split; cbn [_num _den]; [assumption|].
  rewrite <- (Z.mul_1_l (_den (Fraction_ctor i (_den a)))).
  apply gcd_le1_mul; trivial.
  - rewrite Z.gcd_1_r. lia.
  - apply (gcd_le1_factors 1 g); [lia | assumption|]. now rewrite Z.mul_1_l, <- Ed.
  - rewrite Z.gcd_1_r. lia.
Qed.

Lemma op_div_assign_Z_canonical a i :
  canonical a -> canonical (op_div_assign_Z a i).
Proof.
  intros [Ha Ga]. unfold op_div_assign_Z.
  destruct (ctor_decomp (_num a) i) as (g & Hg & _ & En & Ed & [P C]).
  split; cbn [_num _den]; [nia|].
  rewrite <- (Z.mul_1_r (_num (Fraction_ctor (_num a) i))), Z.mul_comm with (n := _den a).
  apply gcd_le1_mul; trivial.
  - rewrite Z.gcd_1_l. lia.
  - apply (gcd_le1_factors g 1); [assumption | lia|].
    rewrite <- En, Z.mul_1_l. destruct (i <? 0); [now rewrite Z.gcd_opp_l | assumption].
  - rewrite Z.gcd_1_l. lia.
Qed.

Lemma op_Z_div_canonical i a : canonical a -> canonical (op_Z_div i a).
Proof.
  intros Ha. apply op_mul_assign_Z_canonical. now apply reciprocal_canonical.
Qed.

(** *** Comparison *)

(** Exactly one of [a < b], [a == b], [a > b] is true. *)
Lemma op_lt_eq_gt a b :
  (op_lt a b = true /\ op_eq a b = false /\ op_gt a b = false) \/
  (op_lt a b = false /\ op_eq a b = true /\ op_gt a b = false) \/
  (op_lt a b = false /\ op_eq a b = false /\ op_gt a b = true).
Proof.
  unfold op_gt, op_lt, op_eq.
  rewrite (gcd_comm (_den b) (_den a)), (Z.eqb_sym (_den b) (_den a)).
  destruct (_den a =? _den b).
  - destruct (Z.ltb_spec (_num a) (_num b)), (Z.eqb_spec (_num a) (_num b)),
      (Z.ltb_spec (_num b) (_num a)); try lia; tauto.
  - destruct (gcd (_den a) (_den b) =? 0).
    + destruct (Z.ltb_spec (_den b * _num a) (_den a * _num b)),
        (Z.eqb_spec (_den b * _num a) (_den a * _num b)),
        (Z.ltb_spec (_den a * _num b) (_den b * _num a)); try lia; tauto.
    + remember (_den a ÷ gcd (_den a) (_den b)) as l.
      remember (_den b ÷ gcd (_den a) (_den b)) as r.
      destruct (Z.ltb_spec (r * _num a) (l * _num b)),
        (Z.eqb_spec (r * _num a) (l * _num b)),
        (Z.ltb_spec (l * _num b) (r * _num a)); try lia; tauto.
Qed.


(** On fractions with non-zero denominators [operator==] is equality of the
    rational values. *)
Lemma op_eq_cross x y :
  _den x <> 0 -> _den y <> 0 ->
  op_eq x y = true <-> _num x * _den y = _num y * _den x.
Proof.
  intros Hx Hy. unfold op_eq.
  destruct (Z.eqb_spec (_den x) (_den y)) as [E|Hne].
  - rewrite Z.eqb_eq, <- E. split; [now intros -> | intros H].
    now apply Z.mul_cancel_r in H.
  - pose proof (gcd_den_neq_0 x y Hne) as Hc.
    destruct (quot_gcd_den x y Hc) as [E1 E2].
    destruct (Z.eqb_spec (gcd (_den x) (_den y)) 0); [contradiction|].
    rewrite Z.eqb_eq.
    remember (gcd (_den x) (_den y)) as c. clear Heqc.
    remember (_den x ÷ c) as l. remember (_den y ÷ c) as r. clear Heql Heqr.
    rewrite E1, E2.
    replace (_num x * (c * r)) with (c * (r * _num x)) by ring.
    replace (_num y * (c * l)) with (c * (l * _num y)) by ring.
    split; intros H; [now rewrite H | now apply Z.mul_cancel_l in H].
Qed.

Lemma op_eq_value x y :
  _den x <> 0 -> _den y <> 0 ->
  op_eq x y = true <-> (value x == value y)%Q.
Proof.
  intros Hx Hy. rewrite (op_eq_cross x y Hx Hy). unfold value.
  symmetry. now apply Qdiv_inject_eq_iff.
Qed.

Lemma op_eq_refl x : op_eq x x = true.
Proof. unfold op_eq. now rewrite !Z.eqb_refl. Qed.

Lemma op_neg_value b : (value (op_neg b) == - value b)%Q.
Proof.
  unfold value, op_neg. cbn [_num _den]. rewrite inject_Z_opp.
  unfold Qdiv. ring.
Qed.

Lemma op_sub_value a b :
  _den a <> 0 -> _den b <> 0 ->
  0 < _den (op_sub a b) /\ (value (op_sub a b) == value a - value b)%Q.
Proof.
  intros Ha Hb. unfold op_sub.
  destruct (op_add_value a (op_neg b) Ha Hb) as [Hd Hv].
  split; [exact Hd|]. rewrite Hv, op_neg_value. reflexivity.
Qed.

(** *** Addition with a zero denominator *)

Lemma canonical_zero_den_num a :
  canonical a -> _den a = 0 -> Z.sgn (_num a) = _num a.
Proof. intros [_ G] E. rewrite E, Z.gcd_0_r in G. lia. Qed.

Lemma op_add_zero_dens a b :
  _den a = 0 -> _den b = 0 ->
  op_add a b = {| _num := Z.sgn (_num a + _num b); _den := 0 |}.
Proof.
  intros Ea Eb. unfold op_add.
  rewrite op_add_args_same_den by congruence. rewrite Ea. apply ctor_zero_den.
Qed.

Lemma op_add_zero_den_l a b :
  canonical a -> _den a = 0 -> 0 < _den b -> op_add a b = a.
Proof.
  intros Ca Ea Hb. unfold op_add.
  rewrite op_add_args_factored by lia.
  rewrite Ea, gcd_spec, Z.gcd_0_l, Z.abs_eq by lia.
  rewrite Z.quot_same, Z.quot_0_l by lia.
  replace (1 * _num a + 0 * _num b) with (_num a) by ring.
  rewrite Z.mul_0_l, ctor_zero_den, (canonical_zero_den_num a Ca Ea).
  destruct a as [n d]. cbn [_num _den] in *. now subst d.
Qed.

Lemma op_add_zero_den_r a b :
  canonical b -> 0 < _den a -> _den b = 0 -> op_add a b = b.
Proof.
  intros Cb Ha Eb. unfold op_add.
  rewrite op_add_args_factored by lia.
  rewrite Eb, gcd_spec, Z.gcd_0_r, Z.abs_eq by lia.
  rewrite Z.quot_same, Z.quot_0_l by lia.
  replace (0 * _num a + 1 * _num b) with (_num b) by ring.
  rewrite Z.mul_0_r, ctor_zero_den, (canonical_zero_den_num b Cb Eb).
  destruct b as [n d]. cbn [_num _den] in *. now subst d.
Qed.

(** The fraction [0/0] compares equal to every fraction with a non-zero
    denominator. *)
Lemma op_eq_zero_zero a :
  _den a <> 0 -> op_eq {| _num := 0; _den := 0 |} a = true.
Proof.
  intros Ha. unfold op_eq. cbn [_num _den].
  destruct (Z.eqb_spec 0 (_den a)); [lia|].
  rewrite gcd_spec, Z.gcd_0_l.
  destruct (Z.eqb_spec (Z.abs (_den a)) 0); [lia|].
  rewrite Z.quot_0_l by lia. rewrite Z.mul_0_r, Z.mul_0_l. reflexivity.
Qed.


Lemma reciprocal_zero a :
  (_num a = 0 -> _den (reciprocal a) = 0) /\
  (_den a = 0 -> _num (reciprocal a) = 0).
Proof.
  rewrite reciprocal_spec.
  split; intros E; destruct (Z.ltb_spec (_num a) 0); cbn [_num _den]; lia.
Qed.

(** *** The canonical form is an invariant of the whole interface *)

Lemma canonical_nonzero_den f :
  canonical f -> _den f <> 0 ->
  0 < _den f /\ gcd (abs (_num f)) (_den f) = 1.
Proof.
  intros [Hd G] Hne. split; [lia|].
  rewrite gcd_spec, abs_spec, Z.gcd_abs_l.
  destruct (gcd_le1_cases _ _ G) as [[_ E]|E]; [contradiction | exact E].
Qed.

Lemma api_canonical (a b : Fraction) (n d i : Z) :
  canonical (Fraction_ctor n d) /\
  canonical (Fraction_of_Z n) /\
  canonical Fraction_default /\
  canonical (op_add a b) /\ canonical (op_add_assign a b) /\
  canonical (op_sub a b) /\ canonical (op_sub_assign a b) /\
  (canonical a ->
     canonical (op_neg a) /\ canonical (reciprocal a) /\
     canonical (op_add_assign_Z a i) /\ canonical (op_sub_assign_Z a i) /\
     canonical (op_add_Z a i) /\ canonical (op_Z_add i a) /\
     canonical (op_sub_Z a i) /\ canonical (op_Z_sub i a) /\
     canonical (op_mul_assign_Z a i) /\ canonical (op_mul_Z a i) /\
     canonical (op_Z_mul i a) /\
     canonical (op_div_assign_Z a i) /\ canonical (op_div_Z a i) /\
     canonical (op_Z_div i a)) /\
  (canonical a -> canonical b ->
     canonical (op_mul a b) /\ canonical (op_mul_assign a b) /\
     canonical (op_div a b) /\ canonical (op_div_assign a b)).
Proof.
  repeat match goal with |- _ /\ _ => split end;
    try apply ctor_canonical; try apply of_Z_canonical;
    try apply op_add_canonical; try apply op_sub_canonical.
  - rewrite op_add_assign_eq. apply op_add_canonical.
  - intros Ha. repeat match goal with |- _ /\ _ => split end.
    + now apply op_neg_canonical.
    + now apply reciprocal_canonical.
    + now apply op_add_assign_Z_canonical.
    + now apply op_add_assign_Z_canonical.
    + now apply op_add_assign_Z_canonical.
    + now apply op_add_assign_Z_canonical.
    + now apply op_add_assign_Z_canonical.
    + apply op_add_assign_Z_canonical. now apply op_neg_canonical.
    + now apply op_mul_assign_Z_canonical.
    + now apply op_mul_assign_Z_canonical.
    + now apply op_mul_assign_Z_canonical.
    + now apply op_div_assign_Z_canonical.
    + now apply op_div_assign_Z_canonical.
    + now apply op_Z_div_canonical.
  - intros Ha Hb. repeat match goal with |- _ /\ _ => split end.
    + now apply op_mul_canonical.
    + now apply op_mul_canonical.
    + now apply op_div_canonical.
    + now apply op_div_canonical.
Qed.

(** Multiplication of fractions in canonical form: the operands are reduced
    crosswise first, and the product is in canonical form and exact. *)
Lemma op_mul_contract a b :
  canonical a -> canonical b ->
  let g1 := gcd (_num a) (_den b) in
  let g2 := gcd (_num b) (_den a) in
  Fraction_ctor (_num a) (_den b) = {| _num := _num a ÷ g1; _den := _den b ÷ g1 |} /\
  Fraction_ctor (_num b) (_den a) = {| _num := _num b ÷ g2; _den := _den a ÷ g2 |} /\
  op_mul a b = {| _num := (_num a ÷ g1) * (_num b ÷ g2);
                  _den := (_den b ÷ g1) * (_den a ÷ g2) |} /\
  canonical (op_mul a b) /\
  _num (op_mul a b) * (_den a * _den b) = (_num a * _num b) * _den (op_mul a b) /\
  (_den a <> 0 -> _den b <> 0 ->
     0 < _den (op_mul a b) /\ (value (op_mul a b) == value a * value b)%Q).
Proof.
  intros Ha Hb g1 g2. subst g1 g2. rewrite !gcd_spec.
  repeat match goal with |- _ /\ _ => split end.
  - apply ctor_reduced, Hb.
  - apply ctor_reduced, Ha.
  - now apply op_mul_reduced.
  - now apply op_mul_canonical.
  - apply op_mul_cross.
  - apply op_mul_value.
Qed.

(** The contract of [reciprocal()]. *)
Lemma reciprocal_contract a :
  reciprocal a =
    (if _num a <? 0 then {| _num := - _den a; _den := - _num a |}
     else {| _num := _den a; _den := _num a |}) /\
  0 <= _den (reciprocal a) /\
  (_num a = 0 -> _den (reciprocal a) = 0) /\
  (_den a = 0 -> _num (reciprocal a) = 0).
Proof.
  split; [apply reciprocal_spec|]. split; [apply reciprocal_den_nonneg|].
  apply reciprocal_zero.
Qed.

End Part000Facts.

(* ===================================================================== *)
(** ** Facts about the variant of [fractions.hpp] *)
(* ===================================================================== *)

Module FractionsHppFacts.
Import FractionsHpp.

(** On a denominator that is not negative the two constructors agree. *)
Lemma hpp_ctor_nonneg n d :
  0 <= d -> Fraction_ctor n d = Part000.Fraction_ctor n d.
Proof.
  intros Hd. unfold Fraction_ctor, normalize, Part000.Fraction_ctor, Part000.normalize.
  cbn [_num _den]. destruct (Z.ltb_spec d 0); [lia | reflexivity].
Qed.

Lemma hpp_ctor_zero_den n : Fraction_ctor n 0 = {| _num := Z.sgn n; _den := 0 |}.
Proof. rewrite hpp_ctor_nonneg by lia. apply Part000Facts.ctor_zero_den. Qed.

Lemma hpp_op_mul_canonical a b :
  canonical a -> canonical b -> canonical (op_mul a b).
Proof.
  intros [Ha _] [Hb _]. unfold op_mul, op_mul_args.
  rewrite hpp_ctor_nonneg by nia. apply Part000Facts.ctor_canonical.
Qed.

Lemma hpp_op_mul_value a b :
  0 < _den a -> 0 < _den b ->
  0 < _den (op_mul a b) /\ (value (op_mul a b) == value a * value b)%Q.
Proof.
  intros Ha Hb. unfold op_mul, op_mul_args.
  rewrite hpp_ctor_nonneg by nia. split.
  - apply Part000Facts.ctor_den_pos. nia.
  - rewrite Part000Facts.ctor_value by nia. unfold value.
    rewrite Qdiv_inject_mul by lia. reflexivity.
Qed.

Lemma hpp_op_add_value a b :
  0 < _den a -> 0 < _den b ->
  0 < _den (op_add a b) /\ (value (op_add a b) == value a + value b)%Q.
Proof.
  intros Ha Hb. unfold op_add, op_add_args.
  destruct (Z.eqb_spec (_den a) (_den b)) as [E|_].
  - rewrite hpp_ctor_nonneg by lia. split; [apply Part000Facts.ctor_den_pos; lia|].
    rewrite Part000Facts.ctor_value by lia. unfold value.
    rewrite Qdiv_inject_add by lia.
    apply Qdiv_inject_eq_iff; [lia | nia |]. rewrite <- E. ring.
  - rewrite hpp_ctor_nonneg by nia. split; [apply Part000Facts.ctor_den_pos; nia|].
    rewrite Part000Facts.ctor_value by nia. unfold value.
    rewrite Qdiv_inject_add by lia.
    apply Qdiv_inject_eq_iff; [nia | nia | ring].
Qed.


(** On operands in canonical form the two variants of [operator*] return the
    same fraction: only the order of multiplying and reducing differs. *)
Lemma hpp_op_mul_eq a b :
  canonical a -> canonical b -> op_mul a b = Part000.op_mul a b.
Proof.
  intros Ca Cb.
  pose proof (hpp_op_mul_canonical a b Ca Cb) as Ch.
  pose proof (Part000Facts.op_mul_canonical a b Ca Cb) as Cp.
  pose proof (Part000Facts.op_mul_cross a b) as Xp.
  assert (Xh : _num (op_mul a b) * (_den a * _den b) =
               (_num a * _num b) * _den (op_mul a b)).
  { unfold op_mul, op_mul_args. destruct Ca, Cb.
    rewrite hpp_ctor_nonneg by nia. apply Part000Facts.ctor_cross. }
  destruct Ca as [Ha Ga], Cb as [Hb Gb].
  assert (Hcase : (0 < _den a /\ 0 < _den b) \/ _den a * _den b = 0) by nia.
  destruct Hcase as [[Pa Pb]|Zab].
  - destruct (hpp_op_mul_value a b Pa Pb) as [Ph _].
    destruct (Part000Facts.op_mul_value a b) as [Pp _]; [lia | lia|].
    apply canonical_unique; trivial.
    apply (Z.mul_cancel_r _ _ (_den a * _den b)); [nia|].
    transitivity ((_num (op_mul a b) * (_den a * _den b)) * _den (Part000.op_mul a b));
      [ring|].
    rewrite Xh.
    transitivity ((_num (Part000.op_mul a b) * (_den a * _den b)) * _den (op_mul a b));
      [rewrite Xp|]; ring.
  - assert (Eh : op_mul a b = {| _num := Z.sgn (_num a * _num b); _den := 0 |}).
    { unfold op_mul, op_mul_args. rewrite Zab. apply hpp_ctor_zero_den. }
    rewrite Eh.
    assert (Zp : _den (Part000.op_mul a b) = 0).
    { unfold Part000.op_mul, Part000.op_mul_assign. cbn [_den].
      apply Z.mul_eq_0. apply Z.mul_eq_0 in Zab. destruct Zab as [Z0|Z0].
      - right. now apply Part000Facts.ctor_den_eq_0.
      - left. now apply Part000Facts.ctor_den_eq_0. }
    apply canonical_zero_unique; trivial.
    + rewrite <- Eh. exact Ch.
    + cbn [_num]. rewrite Z.sgn_sgn.
      unfold Part000.op_mul, Part000.op_mul_assign. cbn [_num].
      destruct (Part000Facts.ctor_decomp (_num a) (_den b)) as (g1 & Hg1 & _ & En1 & _).
      destruct (Part000Facts.ctor_decomp (_num b) (_den a)) as (g2 & Hg2 & _ & En2 & _).
      destruct (Z.ltb_spec (_den b) 0); [lia|]. destruct (Z.ltb_spec (_den a) 0); [lia|].
      remember (_num (Part000.Fraction_ctor (_num a) (_den b))) as n1.
      remember (_num (Part000.Fraction_ctor (_num b) (_den a))) as n2.
      rewrite En1, En2, !Z.sgn_mul, (Z.sgn_pos g1), (Z.sgn_pos g2) by assumption.
      ring.
Qed.

(** On operands in canonical form the two variants of [operator+] return the
    same fraction as well. *)
Lemma hpp_op_add_eq a b :
  canonical a -> canonical b -> op_add a b = Part000.op_add a b.
Proof.
  intros [Ha _] [Hb _]. unfold op_add, op_add_args, Part000.op_add.
  destruct (Z.eqb_spec (_den a) (_den b)) as [E|Hne].
  - rewrite (Part000Facts.op_add_args_same_den a b E). now apply hpp_ctor_nonneg.
  - rewrite (Part000Facts.op_add_args_factored a b Hne).
    rewrite hpp_ctor_nonneg by nia.
    pose proof (Part000Facts.gcd_den_neq_0 a b Hne) as Hc.
    destruct (Part000Facts.quot_gcd_den a b Hc) as [E1 E2].
    pose proof (gcd_nonneg (_den a) (_den b)) as Hpos.
    remember (gcd (_den a) (_den b)) as c. clear Heqc.
    remember (_den a ÷ c) as l. remember (_den b ÷ c) as r. clear Heql Heqr.
    rewrite <- (Part000Facts.ctor_scale c (r * _num a + l * _num b) (_den a * r)) by lia.
    f_equal; [rewrite E2, E1 | rewrite E2]; ring.
Qed.

(** A negative denominator coprime to the numerator survives the
    constructor, and [reciprocal()] turns a negative numerator into a
    negative denominator. *)
Lemma hpp_ctor_coprime n d :
  Z.gcd n d = 1 -> Fraction_ctor n d = {| _num := n; _den := d |}.
Proof.
  intros E. unfold Fraction_ctor, normalize. cbn [_num _den].
  now rewrite gcd_spec, E.
Qed.

Lemma hpp_reciprocal_den a : _den (reciprocal a) = _num a.
Proof. reflexivity. Qed.

End FractionsHppFacts.

(* ===================================================================== *)
(** ** The properties of the specification *)
(* ===================================================================== *)

(** C7 (gcd contract).  For all integers [m] and [n], negative ones
    included, [gcd m n] is the non-negative greatest common divisor of [m]
    and [n]; [gcd 0 n] is [abs n], the absolute value of [n]; [gcd 0 0] is
    [0]; and for [m <> 0] the result is that of Euclid's loop [gcd_recur],
    which returns [abs m] when its second argument is [0] and otherwise
    continues with [(n, m rem n)]. *)
Theorem gcd_contract (m n : Z) :
  (0 <= gcd m n /\ (gcd m n | m) /\ (gcd m n | n) /\
   forall d, (d | m) -> (d | n) -> (d | gcd m n)) /\
  gcd 0 n = abs n /\ abs n = Z.abs n /\ gcd 0 0 = 0 /\
  (m <> 0 -> gcd m n = gcd_recur m n) /\
  gcd_recur m 0 = abs m /\
  (n <> 0 -> gcd_recur m n = gcd_recur n (Z.rem m n)).
Proof.
  repeat match goal with |- _ /\ _ => split end.
  - apply gcd_nonneg.
  - rewrite gcd_spec. apply Z.gcd_divide_l.
  - rewrite gcd_spec. apply Z.gcd_divide_r.
  - intros d Hm Hn. rewrite gcd_spec. now apply Z.gcd_greatest.
  - reflexivity.
  - apply abs_spec.
  - reflexivity.
  - intros Hm. unfold gcd. destruct (Z.eqb_spec m 0); [contradiction | reflexivity].
  - apply gcd_recur_0_r.
  - apply gcd_recur_step.
Qed.

Lemma gcd_contract_witness :
  (-3 | gcd 12 (-18)) /\
  gcd 12 (-18) = gcd_recur 12 (-18) /\
  gcd_recur 12 (-18) = gcd_recur (-18) (Z.rem 12 (-18)).
Proof.
  destruct (gcd_contract 12 (-18)) as ((_ & _ & _ & Hgreatest) & _ & _ & _ & Hne & _ & Hstep).
  split; [|split].
  - apply Hgreatest; [exists (-4) | exists 6]; reflexivity.
  - apply Hne. lia.
  - apply Hstep. lia.
Defined.

(** C9 (zero denominator through the constructor).  For every integer [n],
    [Fraction(n, 0)] has denominator [0] and the sign of [n], one of -1, 0, 1,
    as numerator, in both variants; the divisor used is [gcd n 0 = |n|]. *)
Theorem ctor_zero_den_sign (n : Z) :
  gcd n 0 = Z.abs n /\
  Part000.Fraction_ctor n 0 = {| _num := Z.sgn n; _den := 0 |} /\
  FractionsHpp.Fraction_ctor n 0 = {| _num := Z.sgn n; _den := 0 |} /\
  (Z.sgn n = -1 \/ Z.sgn n = 0 \/ Z.sgn n = 1) /\
  (1 < Z.abs n ->
     Part000.Fraction_ctor n 0 = {| _num := n ÷ gcd n 0; _den := 0 ÷ gcd n 0 |} /\
     FractionsHpp.Fraction_ctor n 0 = {| _num := n ÷ gcd n 0; _den := 0 ÷ gcd n 0 |}).
Proof.
  split; [rewrite gcd_spec; apply Z.gcd_0_r|].
  split; [apply Part000Facts.ctor_zero_den|].
  split; [apply FractionsHppFacts.hpp_ctor_zero_den|].
  split; [lia|].
  intros Hn. rewrite FractionsHppFacts.hpp_ctor_nonneg by lia.
  rewrite gcd_spec, <- Part000Facts.ctor_reduced by lia. now split.
Qed.

Lemma ctor_zero_den_sign_witness :
  Part000.Fraction_ctor (-6) 0 = {| _num := -6 ÷ gcd (-6) 0; _den := 0 ÷ gcd (-6) 0 |} /\
  FractionsHpp.Fraction_ctor (-6) 0 = {| _num := -6 ÷ gcd (-6) 0; _den := 0 ÷ gcd (-6) 0 |}.
Proof.
  apply (ctor_zero_den_sign (-6)). simpl. lia.
Defined.

(** C10 (scalar compound operators of [fractions.hpp]).  [operator*=(i)]
    divides by [gcd i den] and [operator/=(i)] by [gcd num i]; the divisor is
    non-zero exactly when the two arguments of [gcd] are not both zero, the
    operator divides by zero exactly when they are both zero, and under the
    precondition that they are not both zero it returns a fraction. *)
Theorem scalar_ops_zero_divisor (this : Fraction) (i : Z) :
  (gcd i (_den this) <> 0 <-> ~ (i = 0 /\ _den this = 0)) /\
  (FractionsHpp.op_mul_assign_Z this i = None <-> i = 0 /\ _den this = 0) /\
  (~ (i = 0 /\ _den this = 0) ->
     exists r, FractionsHpp.op_mul_assign_Z this i = Some r) /\
  (gcd (_num this) i <> 0 <-> ~ (_num this = 0 /\ i = 0)) /\
  (FractionsHpp.op_div_assign_Z this i = None <-> _num this = 0 /\ i = 0) /\
  (~ (_num this = 0 /\ i = 0) ->
     exists r, FractionsHpp.op_div_assign_Z this i = Some r).
Proof.
  assert (Hmul : FractionsHpp.op_mul_assign_Z this i = None <-> i = 0 /\ _den this = 0).
  { unfold FractionsHpp.op_mul_assign_Z, checked_quot.
    rewrite <- (gcd_eq_0 i (_den this)).
    destruct (Z.eqb_spec (gcd i (_den this)) 1) as [E|_].
    - rewrite E. split; [discriminate | lia].
    - destruct (Z.eqb_spec (gcd i (_den this)) 0).
      + split; intros _; [assumption | reflexivity].
      + split; [discriminate | intros; contradiction]. }
  assert (Hdiv : FractionsHpp.op_div_assign_Z this i = None <-> _num this = 0 /\ i = 0).
  { unfold FractionsHpp.op_div_assign_Z, checked_quot.
    rewrite <- (gcd_eq_0 (_num this) i).
    destruct (Z.eqb_spec (gcd (_num this) i) 1) as [E|_].
    - rewrite E. split; [discriminate | lia].
    - destruct (Z.eqb_spec (gcd (_num this) i) 0).
      + split; intros _; [assumption | reflexivity].
      + split; [discriminate | intros; contradiction]. }
  assert (Hg : forall x y, gcd x y <> 0 <-> ~ (x = 0 /\ y = 0)).
  { intros x y. rewrite <- gcd_eq_0. tauto. }
  split; [apply Hg|]. split; [exact Hmul|]. split; [|split; [apply Hg|]].
  - intros H. destruct (FractionsHpp.op_mul_assign_Z this i) as [r|] eqn:E.
    + now exists r.
    + exfalso. apply H. now apply Hmul.
  - split; [exact Hdiv|].
    intros H. destruct (FractionsHpp.op_div_assign_Z this i) as [r|] eqn:E.
    + now exists r.
    + exfalso. apply H. now apply Hdiv.
Qed.

Lemma scalar_ops_zero_divisor_witness :
  (exists r, FractionsHpp.op_mul_assign_Z (mkFraction 3 4) 6 = Some r) /\
  (exists r, FractionsHpp.op_div_assign_Z (mkFraction 6 5) 4 = Some r).
Proof.
  split.
  - apply (scalar_ops_zero_divisor (mkFraction 3 4) 6). simpl. lia.
  - apply (scalar_ops_zero_divisor (mkFraction 6 5) 4). simpl. lia.
Defined.

(** C6 (division).  For all fractions [a] and [b], [a / b] is the fraction
    [a * r] where [r] is [b] after [reciprocal()], for [operator/] and for
    [operator/=], in both variants. *)
Theorem op_div_is_mul_reciprocal (a b : Fraction) :
  Part000.op_div a b = Part000.op_mul a (Part000.reciprocal b) /\
  Part000.op_div_assign a b = Part000.op_mul_assign a (Part000.reciprocal b) /\
  FractionsHpp.op_div a b = FractionsHpp.op_mul a (FractionsHpp.reciprocal b) /\
  FractionsHpp.op_div_assign a b =
    FractionsHpp.op_mul_assign a (FractionsHpp.reciprocal b).
Proof.
  repeat match goal with |- _ /\ _ => split end.
  - apply Part000Facts.op_div_eq.
  - apply (Part000Facts.op_div_eq a b).
  - reflexivity.
  - reflexivity.
Qed.

(** C3 (addition), as amended.  For fractions [a], [b] with different
    denominators, [common = gcd a.den b.den] is not zero, and [operator+] of
    [part_000] hands to the constructor the numerators scaled by the other
    operand's reduced denominator over [a.den * (b.den / common)].  That
    denominator is the raw product divided by [common]: never larger in
    magnitude than [a.den * b.den], and for positive denominators strictly
    smaller exactly when [common > 1].  With non-zero denominators the
    normalized result is the exact rational sum; with both denominators zero
    the result is the sign of [a.num + b.num] over zero; [operator+=] returns
    the same fraction.  [operator+] of [fractions.hpp] does not factor: it
    combines over the raw product, and on operands in canonical form returns
    the same fraction. *)
Theorem op_add_algorithm (a b : Fraction) :
  (_den a <> _den b ->
     let common := gcd (_den a) (_den b) in
     let l := _den a ÷ common in
     let r := _den b ÷ common in
     common <> 0 /\
     Part000.op_add_args a b = (r * _num a + l * _num b, _den a * r) /\
     (_den a * r) * common = _den a * _den b /\
     Z.abs (_den a * r) <= Z.abs (_den a * _den b) /\
     (0 < _den a -> 0 < _den b ->
        (_den a * r < _den a * _den b <-> 1 < common))) /\
  (_den a <> 0 -> _den b <> 0 ->
     0 < _den (Part000.op_add a b) /\
     (value (Part000.op_add a b) == value a + value b)%Q) /\
  (_den a = 0 -> _den b = 0 ->
     Part000.op_add a b = {| _num := Z.sgn (_num a + _num b); _den := 0 |}) /\
  canonical (Part000.op_add a b) /\
  Part000.op_add_assign a b = Part000.op_add a b /\
  (_den a <> _den b ->
     FractionsHpp.op_add_args a b =
       (_den b * _num a + _den a * _num b, _den a * _den b)) /\
  (canonical a -> canonical b ->
     FractionsHpp.op_add a b = Part000.op_add a b).
Proof.
  split; [|split; [|split; [|split; [|split; [|split]]]]].
  - intros Hne common l r.
    pose proof (Part000Facts.gcd_den_neq_0 a b Hne) as Hc.
    destruct (Part000Facts.quot_gcd_den a b Hc) as [E1 E2].
    pose proof (gcd_nonneg (_den a) (_den b)) as Hpos.
    pose proof (Part000Facts.op_add_args_factored a b Hne) as Hargs.
    fold common in Hc, E1, E2, Hpos, Hargs. fold l in E1, Hargs. fold r in E2, Hargs.
    split; [exact Hc|]. split; [exact Hargs|].
    clear Hargs. clearbody common l r.
    assert (Eprod : _den a * r * common = _den a * _den b).
    { rewrite E2. ring. }
    split; [exact Eprod|]. split.
    + rewrite <- Eprod, (Z.abs_mul (_den a * r) common).
      pose proof (Z.abs_nonneg (_den a * r)). nia.
    + intros Ha Hb. assert (Hr : 0 < r) by nia. split; intros Hlt; nia.
  - apply Part000Facts.op_add_value.
  - apply Part000Facts.op_add_zero_dens.
  - apply Part000Facts.op_add_canonical.
  - apply Part000Facts.op_add_assign_eq.
  - intros Hne. unfold FractionsHpp.op_add_args.
    destruct (Z.eqb_spec (_den a) (_den b)); [contradiction | reflexivity].
  - apply FractionsHppFacts.hpp_op_add_eq.
Qed.

Lemma op_add_algorithm_witness :
  (let a := mkFraction 1 4 in
   let b := mkFraction 1 6 in
   Part000.op_add_args a b = (3 * 1 + 2 * 1, 4 * 3) /\
   (4 * 3 < 4 * 6 <-> 1 < 2) /\
   (value (Part000.op_add a b) == value a + value b)%Q /\
   FractionsHpp.op_add_args a b = (6 * 1 + 4 * 1, 4 * 6) /\
   FractionsHpp.op_add a b = Part000.op_add a b) /\
  Part000.op_add (mkFraction 1 0) (mkFraction (-1) 0) = mkFraction 0 0.
Proof.
  assert (Ca : canonical (mkFraction 1 4)) by (split; vm_compute; discriminate).
  assert (Cb : canonical (mkFraction 1 6)) by (split; vm_compute; discriminate).
  split.
  - destruct (op_add_algorithm (mkFraction 1 4) (mkFraction 1 6))
      as (Hfac & Hval & _ & _ & _ & Hraw & Hhpp).
    destruct Hfac as (_ & Hargs & _ & _ & Hlt); [simpl; lia|].
    split; [exact Hargs|]. split; [apply Hlt; simpl; lia|].
    split; [apply Hval; simpl; lia|].
    split; [apply Hraw; simpl; lia | exact (Hhpp Ca Cb)].
  - destruct (op_add_algorithm (mkFraction 1 0) (mkFraction (-1) 0))
      as (_ & _ & Hzero & _).
    apply Hzero; reflexivity.
Defined.

(** C3 as stated fails: with coprime denominators the denominator handed
    to the constructor is the raw product itself, not a smaller number. *)
Lemma op_add_denominator_not_smaller :
  let a := Part000.Fraction_ctor 1 2 in
  let b := Part000.Fraction_ctor 1 3 in
  _den a <> _den b /\
  gcd (_den a) (_den b) <> 0 /\
  snd (Part000.op_add_args a b) = _den a * (_den b ÷ gcd (_den a) (_den b)) /\
  ~ (snd (Part000.op_add_args a b) < _den a * _den b).
Proof.
  cbv zeta. split; [|split; [|split]].
  - intros H. vm_compute in H. discriminate.
  - intros H. vm_compute in H. discriminate.
  - vm_compute. reflexivity.
  - intros H. vm_compute in H. discriminate.
Qed.

(** C8 (addition round trip), as amended.  For fractions [a] and [b] in
    canonical form, [(a + b) - b == a] holds unless [a] and [b] are the same
    signed infinity (both denominators zero and the same non-zero numerator);
    in particular it holds whenever one of the denominators is not zero. *)
Theorem add_sub_roundtrip (a b : Fraction) :
  canonical a -> canonical b ->
  (Part000.op_eq (Part000.op_sub (Part000.op_add a b) b) a = true <->
   ~ (_den a = 0 /\ _den b = 0 /\ _num a = _num b /\ _num a <> 0)).
Proof.
  intros Ca Cb. pose proof Ca as [Ha Ga]. pose proof Cb as [Hb Gb].
  pose proof (Part000Facts.op_neg_canonical b Cb) as Cnb.
  destruct (Z.eq_dec (_den a) 0) as [Ea|Na]; destruct (Z.eq_dec (_den b) 0) as [Eb|Nb].
  - rewrite (Part000Facts.op_add_zero_dens a b Ea Eb). unfold Part000.op_sub.
    rewrite Part000Facts.op_add_zero_dens by (cbn [_den Part000.op_neg]; trivial).
    unfold Part000.op_eq. cbn [_num _den Part000.op_neg]. rewrite Ea, Z.eqb_refl, Z.eqb_eq.
    rewrite Ea, Z.gcd_0_r in Ga. rewrite Eb, Z.gcd_0_r in Gb. lia.
  - assert (E : Part000.op_add a b = a)
      by (apply Part000Facts.op_add_zero_den_l; trivial; lia).
    rewrite E. unfold Part000.op_sub.
    rewrite Part000Facts.op_add_zero_den_l by (trivial; simpl; lia).
    rewrite Part000Facts.op_eq_refl. split; [lia | reflexivity].
  - assert (E : Part000.op_add a b = b)
      by (apply Part000Facts.op_add_zero_den_r; trivial; lia).
    rewrite E. unfold Part000.op_sub.
    rewrite Part000Facts.op_add_zero_dens by (cbn [_den Part000.op_neg]; trivial).
    cbn [_num Part000.op_neg]. rewrite Z.add_opp_diag_r. cbn [Z.sgn].
    rewrite Part000Facts.op_eq_zero_zero by assumption. split; [lia | reflexivity].
  - destruct (Part000Facts.op_add_value a b Na Nb) as [Hs Vs].
    destruct (Part000Facts.op_sub_value (Part000.op_add a b) b) as [Ht Vt]; [lia | assumption|].
    split; [lia | intros _].
    apply Part000Facts.op_eq_value; [lia | assumption|].
    rewrite Vt, Vs. ring.
Qed.

Lemma add_sub_roundtrip_witness :
  Part000.op_eq
    (Part000.op_sub (Part000.op_add (mkFraction 1 2) (mkFraction 1 3)) (mkFraction 1 3))
    (mkFraction 1 2) = true /\
  Part000.op_eq
    (Part000.op_sub (Part000.op_add (mkFraction (-1) 0) (mkFraction 1 3)) (mkFraction 1 3))
    (mkFraction (-1) 0) = true.
Proof.
  assert (Ca : canonical (mkFraction 1 2)) by (split; vm_compute; discriminate).
  assert (Cb : canonical (mkFraction 1 3)) by (split; vm_compute; discriminate).
  assert (Ci : canonical (mkFraction (-1) 0)) by (split; vm_compute; discriminate).
  split.
  - apply (add_sub_roundtrip (mkFraction 1 2) (mkFraction 1 3) Ca Cb). simpl. lia.
  - apply (add_sub_roundtrip (mkFraction (-1) 0) (mkFraction 1 3) Ci Cb). simpl. lia.
Defined.

(** C8 as stated fails: infinity plus infinity minus infinity is [0/0],
    which does not compare equal to infinity. *)
Lemma add_sub_roundtrip_same_infinity :
  let a := Part000.Fraction_ctor 1 0 in
  let b := Part000.Fraction_ctor 1 0 in
  canonical a /\ canonical b /\
  Part000.op_sub (Part000.op_add a b) b = mkFraction 0 0 /\
  Part000.op_eq (Part000.op_sub (Part000.op_add a b) b) a = false.
Proof.
  cbv zeta. repeat split; try apply Part000Facts.ctor_canonical.
Qed.

(** C1 (canonical form: every fraction built by the two-argument
    constructor or by an operator has, when [den <> 0], [den > 0] and
    [gcd |num| den = 1]).  [fractions.hpp] breaks the invariant:
    [normalize()] returns before it looks at the sign when the two fields are
    coprime, so [Fraction(1, -2)] keeps the denominator [-2]; and
    [reciprocal()] only swaps, so the reciprocal of [-1/2] has the
    denominator [-1].  In [part_000] both results are in canonical form
    ([Part000Facts.api_canonical] covers its whole interface). *)
Theorem hpp_ctor_negative_den :
  FractionsHpp.Fraction_ctor 1 (-2) = mkFraction 1 (-2) /\
  den (FractionsHpp.Fraction_ctor 1 (-2)) < 0 /\
  FractionsHpp.reciprocal (FractionsHpp.Fraction_ctor (-1) 2) = mkFraction 2 (-1) /\
  den (FractionsHpp.reciprocal (FractionsHpp.Fraction_ctor (-1) 2)) < 0 /\
  Part000.Fraction_ctor 1 (-2) = mkFraction (-1) 2 /\
  Part000.reciprocal (Part000.Fraction_ctor (-1) 2) = mkFraction (-2) 1.
Proof. repeat split. Qed.

(** C2 (trichotomy: exactly one of [a < b], [a == b], [a > b] is true).
    In [fractions.hpp], [operator>] is [!(rhs < *this)],
    so every fraction is greater than itself while it also equals itself, and
    [1/3 < 1/2] and [1/3 > 1/2] are both true.  In [part_000] exactly one of
    the three holds ([Part000Facts.op_lt_eq_gt]). *)
Theorem hpp_gt_not_exclusive :
  (forall a, FractionsHpp.op_eq a a = true /\ FractionsHpp.op_gt a a = true) /\
  (let a := FractionsHpp.Fraction_ctor 1 2 in
   let b := FractionsHpp.Fraction_ctor 1 2 in
   FractionsHpp.op_lt a b = false /\
   FractionsHpp.op_eq a b = true /\
   FractionsHpp.op_gt a b = true) /\
  (let a := FractionsHpp.Fraction_ctor 1 3 in
   let b := FractionsHpp.Fraction_ctor 1 2 in
   FractionsHpp.op_lt a b = true /\ FractionsHpp.op_gt a b = true).
Proof.
  split; [|repeat split].
  intros a. unfold FractionsHpp.op_gt, FractionsHpp.op_lt, FractionsHpp.op_eq.
  now rewrite !Z.eqb_refl, Z.ltb_irrefl.
Qed.

(** C4 (multiplication: [a * b] reduces [a.num] against [b.den] and [b.num]
    against [a.den] before multiplying, and returns the exact product in
    canonical form).  [operator*] of [fractions.hpp] multiplies the raw
    numerators and denominators and reduces afterwards: for [1/2 * 2/3] the
    constructor receives [(2, 6)], where the crosswise reduced operands give
    [(1, 3)].  The returned fraction is the same as in [part_000]
    ([FractionsHppFacts.hpp_op_mul_eq]), which does reduce first
    ([Part000Facts.op_mul_contract]). *)
Theorem hpp_mul_not_reduced_first :
  let a := FractionsHpp.Fraction_ctor 1 2 in
  let b := FractionsHpp.Fraction_ctor 2 3 in
  canonical a /\ canonical b /\
  FractionsHpp.op_mul_args a b = (2, 6) /\
  ((_num a ÷ gcd (_num a) (_den b)) * (_num b ÷ gcd (_num b) (_den a)),
   (_den b ÷ gcd (_num a) (_den b)) * (_den a ÷ gcd (_num b) (_den a))) = (1, 3) /\
  FractionsHpp.op_mul a b = mkFraction 1 3 /\
  Part000.op_mul a b = mkFraction 1 3.
Proof.
  cbv zeta. repeat split; vm_compute; discriminate.
Qed.

(** C5 (reciprocal: the fields are swapped, and both negated when that
    leaves [den < 0], so that [den >= 0] afterwards).  [reciprocal()] of
    [fractions.hpp] swaps the two fields and never negates them: the
    reciprocal of [-1/2] is stored as [2/(-1)].
    [reciprocal()] of [part_000] negates both and stores [-2/1]
    ([Part000Facts.reciprocal_contract]). *)
Theorem hpp_reciprocal_negative_den :
  (forall a, FractionsHpp.reciprocal a = {| _num := _den a; _den := _num a |}) /\
  (let a := FractionsHpp.Fraction_ctor (-1) 2 in
   a = mkFraction (-1) 2 /\
   FractionsHpp.reciprocal a = mkFraction 2 (-1) /\
   _den (FractionsHpp.reciprocal a) < 0 /\
   Part000.reciprocal a = mkFraction (-2) 1).
Proof.
  split; [reflexivity | repeat split].
Qed.

(* ===================================================================== *)
(** ** Further properties of the two files *)
(* ===================================================================== *)

Section FurtherFacts.

Lemma lcm_spec m n : lcm m n = Z.lcm m n.
Proof.
  unfold lcm.
  destruct (Z.eqb_spec m 0) as [->|Hm]; [now rewrite Z.lcm_0_l|].
  destruct (Z.eqb_spec n 0) as [->|Hn]; [now rewrite Z.lcm_0_r|].
  cbn [orb]. rewrite gcd_spec, !abs_spec.
  assert (Hg : Z.gcd m n <> 0) by (intros E; apply Z.gcd_eq_0_l in E; contradiction).
  destruct (quot_gcd_factors m n Hg) as (Em & En & _).
  pose proof (Z.gcd_nonneg m n) as Hpos.
  unfold Z.lcm.
  remember (Z.gcd m n) as g. remember (m ÷ g) as m'. remember (n ÷ g) as n'.
  clear Heqg Heqm' Heqn'.
  assert (Eq1 : Z.abs m ÷ g = Z.abs m').
  { rewrite Em, Z.abs_mul, (Z.abs_eq g) by lia.
    rewrite Z.mul_comm. now apply Z.quot_mul. }
  assert (Eq2 : n / g = n').
  { rewrite En, Z.mul_comm. now apply Z.div_mul. }
  rewrite Eq1, Eq2, Em, En.
  rewrite !Z.abs_mul, (Z.abs_eq g) by lia. ring.
Qed.

(** What [operator==] and [operator<] of [part_000] decide, whatever the
    denominators. *)
Lemma op_eq_iff a b :
  Part000.op_eq a b = true <->
  (if Z.eq_dec (_den a) (_den b) then _num a = _num b
   else _num a * _den b = _num b * _den a).
Proof.
  unfold Part000.op_eq.
  destruct (Z.eq_dec (_den a) (_den b)) as [E|Hne].
  - rewrite E, Z.eqb_refl. apply Z.eqb_eq.
  - destruct (Z.eqb_spec (_den a) (_den b)); [contradiction|].
    pose proof (Part000Facts.gcd_den_neq_0 a b Hne) as Hc.
    destruct (Part000Facts.quot_gcd_den a b Hc) as [E1 E2].
    destruct (Z.eqb_spec (gcd (_den a) (_den b)) 0); [contradiction|].
    rewrite Z.eqb_eq.
    remember (gcd (_den a) (_den b)) as c. clear Heqc.
    remember (_den a ÷ c) as l. remember (_den b ÷ c) as r. clear Heql Heqr.
    rewrite E1, E2.
    replace (_num a * (c * r)) with (c * (r * _num a)) by ring.
    replace (_num b * (c * l)) with (c * (l * _num b)) by ring.
    split; intros H; [now rewrite H | now apply Z.mul_cancel_l in H].
Qed.

Lemma op_lt_iff a b :
  Part000.op_lt a b = true <->
  (if Z.eq_dec (_den a) (_den b) then _num a < _num b
   else _den b * _num a < _den a * _num b).
Proof.
  unfold Part000.op_lt.
  destruct (Z.eq_dec (_den a) (_den b)) as [E|Hne].
  - rewrite E, Z.eqb_refl. apply Z.ltb_lt.
  - destruct (Z.eqb_spec (_den a) (_den b)); [contradiction|].
    pose proof (Part000Facts.gcd_den_neq_0 a b Hne) as Hc.
    destruct (Part000Facts.quot_gcd_den a b Hc) as [E1 E2].
    pose proof (gcd_nonneg (_den a) (_den b)) as Hpos.
    destruct (Z.eqb_spec (gcd (_den a) (_den b)) 0); [contradiction|].
    rewrite Z.ltb_lt.
    remember (gcd (_den a) (_den b)) as c. clear Heqc.
    remember (_den a ÷ c) as l. remember (_den b ÷ c) as r. clear Heql Heqr.
    rewrite E1, E2.
    replace (c * r * _num a) with (c * (r * _num a)) by ring.
    replace (c * l * _num b) with (c * (l * _num b)) by ring.
    apply Z.mul_lt_mono_pos_l. lia.
Qed.


Lemma Qdiv_inject_pos n d :
  0 < d -> (inject_Z n / inject_Z d == n # Z.to_pos d)%Q.
Proof.
  intros Hd. destruct d as [|p|p]; try lia.
  unfold Qdiv, Qinv, Qmult, Qeq, inject_Z. cbn. lia.
Qed.

Lemma Qdiv_inject_lt_iff n1 d1 n2 d2 :
  0 < d1 -> 0 < d2 ->
  (inject_Z n1 / inject_Z d1 < inject_Z n2 / inject_Z d2)%Q <-> n1 * d2 < n2 * d1.
Proof.
  intros H1 H2. rewrite !Qdiv_inject_pos by assumption.
  unfold Qlt. cbn [Qnum Qden]. now rewrite !Z2Pos.id by assumption.
Qed.


Lemma Zgcd_mul_lcm m n : Z.gcd m n * Z.lcm m n = Z.abs (m * n).
Proof.
  destruct (Z.eq_dec (Z.gcd m n) 0) as [E|Hg].
  - rewrite E. apply Z.gcd_eq_0 in E. destruct E as [-> ->]. reflexivity.
  - unfold Z.lcm. pose proof (Z.gcd_nonneg m n) as Hpos.
    destruct (Z.gcd_divide_r m n) as [k Hk].
    remember (Z.gcd m n) as g. clear Heqg.
    rewrite Hk, Z.div_mul by assumption.
    rewrite !Z.abs_mul, (Z.abs_eq g) by lia. ring.
Qed.


Lemma hpp_op_eq_iff a b :
  FractionsHpp.op_eq a b = true <->
  (if Z.eq_dec (_den a) (_den b) then _num a = _num b
   else _num a * _den b = _num b * _den a).
Proof.
  unfold FractionsHpp.op_eq.
  destruct (Z.eq_dec (_den a) (_den b)) as [E|Hne].
  - rewrite E, Z.eqb_refl. apply Z.eqb_eq.
  - destruct (Z.eqb_spec (_den a) (_den b)); [contradiction|].
    rewrite Z.eqb_eq. lia.
Qed.

Lemma hpp_op_lt_iff a b :
  FractionsHpp.op_lt a b = true <->
  (if Z.eq_dec (_den a) (_den b) then _num a < _num b
   else _den b * _num a < _den a * _num b).
Proof.
  unfold FractionsHpp.op_lt.
  destruct (Z.eq_dec (_den a) (_den b)) as [E|Hne].
  - rewrite E, Z.eqb_refl. apply Z.ltb_lt.
  - destruct (Z.eqb_spec (_den a) (_den b)); [contradiction|].
    rewrite Z.ltb_lt. lia.
Qed.

(** What [normalize()] of [fractions.hpp] returns: both fields divided by one
    non-zero number, leaving no common factor. *)
Lemma hpp_normalize_decomp f :
  exists c, c <> 0 /\
    _num f = c * _num (FractionsHpp.normalize f) /\
    _den f = c * _den (FractionsHpp.normalize f) /\
    Z.gcd (_num (FractionsHpp.normalize f)) (_den (FractionsHpp.normalize f)) <= 1.
Proof.
  destruct f as [n d]. unfold FractionsHpp.normalize. cbn [_num _den].
  rewrite gcd_spec. pose proof (Z.gcd_nonneg n d) as Hpos.
  destruct (Z.eqb_spec (Z.gcd n d) 1) as [E1|N1]; cbn [orb _num _den].
  - exists 1. rewrite E1. repeat split; lia.
  - destruct (Z.eqb_spec (Z.gcd n d) 0) as [E0|N0]; cbn [_num _den].
    + exists 1. rewrite E0. repeat split; lia.
    + destruct (quot_gcd_factors n d N0) as (En & Ed & Eg).
      destruct (d <? 0).
      * exists (- Z.gcd n d). rewrite !Z.quot_opp_r by assumption.
        rewrite Z.gcd_opp_l, Z.gcd_opp_r, Eg. repeat split; lia.
      * exists (Z.gcd n d). rewrite Eg. repeat split; lia.
Qed.

Lemma hpp_normalize_id f :
  Z.gcd (_num f) (_den f) <= 1 -> FractionsHpp.normalize f = f.
Proof.
  intros G. unfold FractionsHpp.normalize. rewrite gcd_spec.
  pose proof (Z.gcd_nonneg (_num f) (_den f)).
  destruct (Z.eqb_spec (Z.gcd (_num f) (_den f)) 1); [reflexivity|].
  destruct (Z.eqb_spec (Z.gcd (_num f) (_den f)) 0); [reflexivity|]. lia.
Qed.


Lemma canonical_value_eq x y :
  canonical x -> canonical y -> 0 < _den x -> 0 < _den y ->
  (value x == value y)%Q -> x = y.
Proof.
  intros Cx Cy Hx Hy E. apply canonical_unique; trivial.
  unfold value in E.
  exact (proj1 (Qdiv_inject_eq_iff (_num x) (_den x) (_num y) (_den y)
                  ltac:(lia) ltac:(lia)) E).
Qed.

Lemma op_add_comm a b : Part000.op_add a b = Part000.op_add b a.
Proof.
  unfold Part000.op_add.
  destruct (Z.eq_dec (_den a) (_den b)) as [E|Hne].
  - rewrite (Part000Facts.op_add_args_same_den a b E).
    rewrite (Part000Facts.op_add_args_same_den b a (eq_sym E)).
    now rewrite Z.add_comm, E.
  - rewrite (Part000Facts.op_add_args_factored a b Hne).
    rewrite (Part000Facts.op_add_args_factored b a) by congruence.
    rewrite (gcd_comm (_den b) (_den a)).
    destruct (Part000Facts.quot_gcd_den a b (Part000Facts.gcd_den_neq_0 a b Hne))
      as [E1 E2].
    remember (gcd (_den a) (_den b)) as c. clear Heqc.
    remember (_den a ÷ c) as l. remember (_den b ÷ c) as r. clear Heql Heqr.
    f_equal; [ring|]. rewrite E1, E2. ring.
Qed.

Lemma op_mul_comm a b : Part000.op_mul a b = Part000.op_mul b a.
Proof.
  unfold Part000.op_mul, Part000.op_mul_assign. f_equal; ring.
Qed.

Lemma ctor_zero_num d :
  d <> 0 -> Part000.Fraction_ctor 0 d = {| _num := 0; _den := 1 |}.
Proof.
  intros Hd. apply canonical_unique.
  - apply Part000Facts.ctor_canonical.
  - apply (Part000Facts.of_Z_canonical 0).
  - now apply Part000Facts.ctor_den_pos.
  - cbn. lia.
  - cbn [_num _den]. rewrite (proj2 (Part000Facts.ctor_num_eq_0 0 d) eq_refl). ring.
Qed.

Lemma ctor_diag d :
  d <> 0 -> Part000.Fraction_ctor d d = {| _num := 1; _den := 1 |}.
Proof.
  intros Hd. apply canonical_unique.
  - apply Part000Facts.ctor_canonical.
  - apply (Part000Facts.of_Z_canonical 1).
  - now apply Part000Facts.ctor_den_pos.
  - cbn. lia.
  - cbn [_num _den]. pose proof (Part000Facts.ctor_cross d d) as E.
    apply (Z.mul_cancel_r _ _ d Hd). lia.
Qed.

Lemma ctor_one_num d :
  0 <= d -> Part000.Fraction_ctor 1 d = {| _num := 1; _den := d |}.
Proof.
  intros Hd. apply Part000Facts.normalize_id. split; [exact Hd|].
  cbn [_num _den]. rewrite Z.gcd_1_l. lia.
Qed.

Lemma ctor_one_den n :
  Part000.Fraction_ctor n 1 = {| _num := n; _den := 1 |}.
Proof. apply Part000Facts.normalize_id, (Part000Facts.of_Z_canonical n). Qed.


Lemma op_add_default a :
  canonical a -> Part000.op_add a Part000.Fraction_default = a.
Proof.
  intros Ca. destruct (Z.eq_dec (_den a) 0) as [E|N].
  - apply Part000Facts.op_add_zero_den_l; trivial. cbn. lia.
  - destruct (Part000Facts.op_add_value a Part000.Fraction_default) as [P V];
      [assumption | cbn; lia|].
    destruct Ca as [Pa Ga].
    apply canonical_value_eq; trivial;
      [apply Part000Facts.op_add_canonical | now split | lia|].
    rewrite V. unfold value at 2. cbn [Part000.Fraction_default _num _den].
    unfold Qdiv. ring.
Qed.

Lemma op_add_of_Z f i :
  canonical f ->
  Part000.op_add_assign_Z f i = Part000.op_add f (Part000.Fraction_of_Z i).
Proof.
  intros Cf. unfold Part000.op_add_assign_Z.
  destruct (Z.eqb_spec i 0) as [->|Hi]; [symmetry; now apply op_add_default|].
  unfold Part000.op_add.
  destruct (Z.eqb_spec (_den f) 1) as [E|N].
  - rewrite Part000Facts.op_add_args_same_den by exact E.
    cbn [Part000.Fraction_of_Z _num]. rewrite E. symmetry. apply ctor_one_den.
  - rewrite Part000Facts.op_add_args_factored by exact N.
    cbn [Part000.Fraction_of_Z _num _den].
    rewrite gcd_spec, Z.gcd_1_r, !Z.quot_1_r.
    unfold Part000.Fraction_ctor. do 2 f_equal; ring.
Qed.

Lemma op_mul_of_Z f i :
  Part000.op_mul_assign_Z f i = Part000.op_mul f (Part000.Fraction_of_Z i).
Proof.
  unfold Part000.op_mul_assign_Z, Part000.op_mul, Part000.op_mul_assign.
  cbn [Part000.Fraction_of_Z _num _den]. rewrite ctor_one_den. cbn [_num _den].
  f_equal. ring.
Qed.

Lemma op_div_of_Z f i :
  0 <= _den f ->
  Part000.op_div_assign_Z f i = Part000.op_div f (Part000.Fraction_of_Z i).
Proof.
  intros Hf. unfold Part000.op_div_assign_Z, Part000.op_div, Part000.op_div_assign.
  cbn [Part000.Fraction_of_Z _num _den]. rewrite (ctor_one_num _ Hf). cbn [_num _den].
  f_equal; ring.
Qed.

Lemma reciprocal_value a :
  _num a <> 0 -> _den a <> 0 -> (value (Part000.reciprocal a) == / value a)%Q.
Proof.
  intros Hn Hd. pose proof (inject_Z_neq_0 _ Hn). pose proof (inject_Z_neq_0 _ Hd).
  rewrite Part000Facts.reciprocal_spec. unfold value.
  destruct (_num a <? 0); cbn [_num _den]; rewrite ?inject_Z_opp; field; tauto.
Qed.

End FurtherFacts.

(** X1 ([lcm]).  For all integers, [lcm m n] is the non-negative least
    common multiple: a multiple of both arguments that divides every common
    multiple; it is [0] exactly when one argument is [0]; and
    [gcd m n * lcm m n = |m * n|]. *)
Theorem lcm_contract (m n : Z) :
  0 <= lcm m n /\ (m | lcm m n) /\ (n | lcm m n) /\
  (forall k, (m | k) -> (n | k) -> (lcm m n | k)) /\
  (lcm m n = 0 <-> m = 0 \/ n = 0) /\
  gcd m n * lcm m n = Z.abs (m * n) /\
  lcm m n = lcm n m.
Proof.
  rewrite (lcm_spec n m), lcm_spec, gcd_spec.
  split; [apply Z.lcm_nonneg|]. split; [apply Z.divide_lcm_l|].
  split; [apply Z.divide_lcm_r|]. split; [intros k; apply Z.lcm_least|].
  split; [apply Z.lcm_eq_0|]. split; [apply Zgcd_mul_lcm | apply Z.lcm_comm].
Qed.

Lemma lcm_contract_witness : (lcm 4 (-6) | 24) /\ lcm 4 (-6) <> 0.
Proof.
  destruct (lcm_contract 4 (-6)) as (_ & _ & _ & Hleast & Hzero & _).
  split.
  - apply Hleast; [exists 6 | exists (-4)]; reflexivity.
  - intros E. apply Hzero in E. lia.
Defined.

(** X2 (comparison operators of [part_000]).  For all fractions exactly one
    of [a < b], [a == b], [a > b] is true, and the derived operators are what
    their names say: [!=] is the negation of [==], [<=] is [<] or [==], and
    [>=] is [>] or [==]. *)
Theorem part000_comparison_operators (a b : Fraction) :
  ((Part000.op_lt a b = true /\ Part000.op_eq a b = false /\ Part000.op_gt a b = false) \/
   (Part000.op_lt a b = false /\ Part000.op_eq a b = true /\ Part000.op_gt a b = false) \/
   (Part000.op_lt a b = false /\ Part000.op_eq a b = false /\ Part000.op_gt a b = true)) /\
  Part000.op_ne a b = negb (Part000.op_eq a b) /\
  Part000.op_le a b = Part000.op_lt a b || Part000.op_eq a b /\
  Part000.op_ge a b = Part000.op_gt a b || Part000.op_eq a b.
Proof.
  pose proof (Part000Facts.op_lt_eq_gt a b) as T.
  split; [exact T|]. split; [reflexivity|].
  unfold Part000.op_le, Part000.op_ge. fold (Part000.op_gt a b).
  destruct T as [(-> & -> & ->)|[(-> & -> & ->)|(-> & -> & ->)]]; now split.
Qed.

(** X3 (the comparisons decide the order of the rationals).  On fractions
    with positive denominators, [part_000]'s [==], [<] and [<=] return [true]
    exactly when the rational values are equal, strictly ordered, and ordered. *)
Theorem part000_comparisons_decide_order (a b : Fraction) :
  0 < _den a -> 0 < _den b ->
  (Part000.op_eq a b = true <-> (value a == value b)%Q) /\
  (Part000.op_lt a b = true <-> (value a < value b)%Q) /\
  (Part000.op_le a b = true <-> (value a <= value b)%Q).
Proof.
  intros Ha Hb.
  assert (Hlt : forall x y, 0 < _den x -> 0 < _den y ->
            (Part000.op_lt x y = true <-> (value x < value y)%Q)).
  { intros x y Hx Hy. rewrite op_lt_iff. unfold value.
    rewrite Qdiv_inject_lt_iff by assumption.
    destruct (Z.eq_dec (_den x) (_den y)) as [E|_]; [rewrite E; nia | lia]. }
  split; [apply Part000Facts.op_eq_value; lia|]. split; [now apply Hlt|].
  unfold Part000.op_le. rewrite negb_true_iff, <- not_true_iff_false, (Hlt b a Hb Ha).
  split; [apply Qnot_lt_le | apply Qle_not_lt].
Qed.

Lemma part000_comparisons_decide_order_witness :
  (Part000.op_lt (mkFraction 1 2) (mkFraction 2 3) = true <->
   (value (mkFraction 1 2) < value (mkFraction 2 3))%Q).
Proof.
  apply (part000_comparisons_decide_order (mkFraction 1 2) (mkFraction 2 3));
    simpl; lia.
Defined.

(** X4 ([operator==] of [part_000] as a relation).  It is reflexive and
    symmetric on all fractions, and transitive whenever the fraction in the
    middle has a non-zero denominator; through [0/0] it is not transitive,
    because [0/0] compares equal to every fraction with a non-zero
    denominator. *)
Theorem part000_op_eq_relation (a b c : Fraction) :
  Part000.op_eq a a = true /\
  Part000.op_eq a b = Part000.op_eq b a /\
  (_den b <> 0 -> Part000.op_eq a b = true -> Part000.op_eq b c = true ->
   Part000.op_eq a c = true) /\
  (_den a <> 0 -> Part000.op_eq {| _num := 0; _den := 0 |} a = true).
Proof.
  split; [apply Part000Facts.op_eq_refl|]. split; [|split].
  - apply eq_true_iff_eq. rewrite !op_eq_iff.
    destruct (Z.eq_dec (_den a) (_den b)), (Z.eq_dec (_den b) (_den a)); lia.
  - intros Hb. rewrite !op_eq_iff.
    destruct (Z.eq_dec (_den a) (_den b)) as [E1|N1],
             (Z.eq_dec (_den b) (_den c)) as [E2|N2],
             (Z.eq_dec (_den a) (_den c)) as [E3|N3]; intros H1 H2; try lia; try nia.
  - apply Part000Facts.op_eq_zero_zero.
Qed.

Lemma part000_op_eq_relation_witness :
  Part000.op_eq (mkFraction 1 2) (mkFraction 3 6) = true /\
  Part000.op_eq (mkFraction 0 0) (mkFraction 1 2) = true.
Proof.
  destruct (part000_op_eq_relation (mkFraction 1 2) (mkFraction 2 4) (mkFraction 3 6))
    as (_ & _ & Htrans & Hzero).
  split.
  - apply Htrans; [simpl; lia | reflexivity | reflexivity].
  - apply Hzero. simpl. lia.
Defined.

(** X5 (comparison with an integer).  Comparing a fraction with an integer
    [i] gives the same answer as comparing it with [Fraction(i)], for [==],
    [<], [>], [<=] and [>=] of [part_000], with the integer on either side,
    and for [==] and [<] of [fractions.hpp]. *)
Theorem integer_comparisons_agree (f : Fraction) (i : Z) :
  Part000.op_eq_Z f i = Part000.op_eq f (Part000.Fraction_of_Z i) /\
  Part000.op_lt_Z f i = Part000.op_lt f (Part000.Fraction_of_Z i) /\
  Part000.op_Z_lt i f = Part000.op_lt (Part000.Fraction_of_Z i) f /\
  Part000.op_gt_Z f i = Part000.op_gt f (Part000.Fraction_of_Z i) /\
  Part000.op_le_Z f i = Part000.op_le f (Part000.Fraction_of_Z i) /\
  Part000.op_ge_Z f i = Part000.op_ge f (Part000.Fraction_of_Z i) /\
  Part000.op_Z_eq i f = Part000.op_eq (Part000.Fraction_of_Z i) f /\
  Part000.op_Z_gt i f = Part000.op_gt (Part000.Fraction_of_Z i) f /\
  Part000.op_Z_le i f = Part000.op_le (Part000.Fraction_of_Z i) f /\
  Part000.op_Z_ge i f = Part000.op_ge (Part000.Fraction_of_Z i) f /\
  FractionsHpp.op_eq_Z f i = FractionsHpp.op_eq f (FractionsHpp.Fraction_of_Z i) /\
  FractionsHpp.op_lt_Z f i = FractionsHpp.op_lt f (FractionsHpp.Fraction_of_Z i).
Proof.
  assert (Heq : Part000.op_eq_Z f i = Part000.op_eq f (Part000.Fraction_of_Z i)).
  { apply eq_true_iff_eq. rewrite op_eq_iff. unfold Part000.op_eq_Z.
    cbn [Part000.Fraction_of_Z _num _den].
    destruct (Z.eq_dec (_den f) 1) as [E|N].
    - rewrite E. cbn [Z.eqb Pos.eqb orb]. apply Z.eqb_eq.
    - destruct (Z.eqb_spec (_den f) 1); [contradiction|]. cbn [orb].
      destruct (Z.eqb_spec i 0) as [->|_]; rewrite Z.eqb_eq; lia. }
  assert (Hlt : Part000.op_lt_Z f i = Part000.op_lt f (Part000.Fraction_of_Z i)).
  { apply eq_true_iff_eq. rewrite op_lt_iff. unfold Part000.op_lt_Z.
    cbn [Part000.Fraction_of_Z _num _den].
    destruct (Z.eq_dec (_den f) 1) as [E|N].
    - rewrite E. cbn [Z.eqb Pos.eqb orb]. apply Z.ltb_lt.
    - destruct (Z.eqb_spec (_den f) 1); [contradiction|]. cbn [orb].
      destruct (Z.eqb_spec i 0) as [->|_]; rewrite Z.ltb_lt; lia. }
  assert (Hgt : Part000.op_Z_lt i f = Part000.op_lt (Part000.Fraction_of_Z i) f).
  { apply eq_true_iff_eq. rewrite op_lt_iff. unfold Part000.op_Z_lt.
    cbn [Part000.Fraction_of_Z _num _den].
    destruct (Z.eq_dec 1 (_den f)) as [E|N].
    - rewrite <- E. cbn [Z.eqb Pos.eqb orb]. apply Z.ltb_lt.
    - destruct (Z.eqb_spec (_den f) 1); [congruence|]. cbn [orb].
      destruct (Z.eqb_spec i 0) as [->|_]; rewrite Z.ltb_lt; lia. }
  assert (Hsym : Part000.op_eq (Part000.Fraction_of_Z i) f =
                 Part000.op_eq f (Part000.Fraction_of_Z i)).
  { apply eq_true_iff_eq. rewrite !op_eq_iff.
    destruct (Z.eq_dec (_den (Part000.Fraction_of_Z i)) (_den f)),
             (Z.eq_dec (_den f) (_den (Part000.Fraction_of_Z i))); lia. }
  unfold Part000.op_gt_Z, Part000.op_le_Z, Part000.op_ge_Z, Part000.op_Z_eq,
    Part000.op_Z_gt, Part000.op_Z_le, Part000.op_Z_ge,
    Part000.op_gt, Part000.op_le, Part000.op_ge.
  rewrite Hsym, <- Heq, <- Hlt, <- Hgt.
  repeat match goal with |- _ /\ _ => split end; try reflexivity.
  - apply eq_true_iff_eq. rewrite hpp_op_eq_iff. unfold FractionsHpp.op_eq_Z.
    cbn [FractionsHpp.Fraction_of_Z _num _den]. rewrite Z.eqb_eq.
    destruct (Z.eq_dec (_den f) 1) as [E|_]; [rewrite E|]; lia.
  - apply eq_true_iff_eq. rewrite hpp_op_lt_iff. unfold FractionsHpp.op_lt_Z.
    cbn [FractionsHpp.Fraction_of_Z _num _den]. rewrite Z.ltb_lt.
    destruct (Z.eq_dec (_den f) 1) as [E|_]; [rewrite E|]; lia.
Qed.

(** X6 (comparisons of [fractions.hpp] against those of [part_000]).  For
    all fractions, [==], [<], [!=] and [>=] of the two files return the same
    answers: the GCD factoring never changes a comparison.  The other two
    derived operators of [fractions.hpp] are shifted: its [>] is the [<=] of
    [part_000] and its [<=] is the [<] of [part_000]. *)
Theorem hpp_comparisons (a b : Fraction) :
  FractionsHpp.op_eq a b = Part000.op_eq a b /\
  FractionsHpp.op_lt a b = Part000.op_lt a b /\
  FractionsHpp.op_ne a b = Part000.op_ne a b /\
  FractionsHpp.op_ge a b = Part000.op_ge a b /\
  FractionsHpp.op_gt a b = Part000.op_le a b /\
  FractionsHpp.op_le a b = Part000.op_lt a b.
Proof.
  assert (Heq : forall x y, FractionsHpp.op_eq x y = Part000.op_eq x y).
  { intros x y. apply eq_true_iff_eq. now rewrite hpp_op_eq_iff, op_eq_iff. }
  assert (Hlt : forall x y, FractionsHpp.op_lt x y = Part000.op_lt x y).
  { intros x y. apply eq_true_iff_eq. now rewrite hpp_op_lt_iff, op_lt_iff. }
  unfold FractionsHpp.op_ne, FractionsHpp.op_ge, FractionsHpp.op_le, FractionsHpp.op_gt,
    Part000.op_ne, Part000.op_ge, Part000.op_le.
  rewrite !Heq, !Hlt, negb_involutive. repeat split.
Qed.

(** X7 (the constructor keeps the value).  For a non-zero denominator [d],
    [Fraction(n, d)] has a non-zero denominator and stands for the rational
    [n/d], in both files. *)
Theorem ctor_preserves_value (n d : Z) :
  d <> 0 ->
  (_den (Part000.Fraction_ctor n d) <> 0 /\
   (value (Part000.Fraction_ctor n d) == inject_Z n / inject_Z d)%Q) /\
  (_den (FractionsHpp.Fraction_ctor n d) <> 0 /\
   (value (FractionsHpp.Fraction_ctor n d) == inject_Z n / inject_Z d)%Q).
Proof.
  intros Hd. split.
  - pose proof (Part000Facts.ctor_den_pos n d Hd). split; [lia|].
    now apply Part000Facts.ctor_value.
  - unfold FractionsHpp.Fraction_ctor.
    destruct (hpp_normalize_decomp {| _num := n; _den := d |}) as (c & Hc & En & Ed & _).
    cbn [_num _den] in En, Ed.
    remember (FractionsHpp.normalize {| _num := n; _den := d |}) as r.
    assert (Hr : _den r <> 0) by (intros E; rewrite E in Ed; lia).
    split; [exact Hr|]. unfold value.
    apply Qdiv_inject_eq_iff; trivial. rewrite En, Ed. ring.
Qed.

Lemma ctor_preserves_value_witness :
  (value (Part000.Fraction_ctor 6 (-4)) == inject_Z 6 / inject_Z (-4))%Q /\
  (value (FractionsHpp.Fraction_ctor 6 (-4)) == inject_Z 6 / inject_Z (-4))%Q.
Proof.
  destruct (ctor_preserves_value 6 (-4)) as [[_ H1] [_ H2]]; [lia|]. now split.
Defined.

(** X8 ([normalize()] is idempotent).  Normalizing a second time changes
    nothing, in both files. *)
Theorem normalize_idempotent (f : Fraction) :
  Part000.normalize (Part000.normalize f) = Part000.normalize f /\
  FractionsHpp.normalize (FractionsHpp.normalize f) = FractionsHpp.normalize f.
Proof.
  split.
  - apply Part000Facts.normalize_id, Part000Facts.normalize_canonical.
  - apply hpp_normalize_id.
    destruct (hpp_normalize_decomp f) as (c & _ & _ & _ & G). exact G.
Qed.

(** X9 (canonical form in [part_000]).  Every constructor returns a fraction
    in canonical form, and so does every operator applied to operands in
    canonical form: negation, reciprocal, the four operations and their
    compound assignments, with fraction or integer operands.  A fraction in
    canonical form with a non-zero denominator has a positive denominator and
    [gcd |num| den = 1]. *)
Theorem part000_interface_canonical (a b : Fraction) (n d i : Z) :
  canonical (Part000.Fraction_ctor n d) /\
  canonical (Part000.Fraction_of_Z n) /\
  canonical Part000.Fraction_default /\
  canonical (Part000.op_add a b) /\ canonical (Part000.op_add_assign a b) /\
  canonical (Part000.op_sub a b) /\ canonical (Part000.op_sub_assign a b) /\
  (canonical a ->
     canonical (Part000.op_neg a) /\ canonical (Part000.reciprocal a) /\
     canonical (Part000.op_add_assign_Z a i) /\ canonical (Part000.op_sub_assign_Z a i) /\
     canonical (Part000.op_add_Z a i) /\ canonical (Part000.op_Z_add i a) /\
     canonical (Part000.op_sub_Z a i) /\ canonical (Part000.op_Z_sub i a) /\
     canonical (Part000.op_mul_assign_Z a i) /\ canonical (Part000.op_mul_Z a i) /\
     canonical (Part000.op_Z_mul i a) /\
     canonical (Part000.op_div_assign_Z a i) /\ canonical (Part000.op_div_Z a i) /\
     canonical (Part000.op_Z_div i a)) /\
  (canonical a -> canonical b ->
     canonical (Part000.op_mul a b) /\ canonical (Part000.op_mul_assign a b) /\
     canonical (Part000.op_div a b) /\ canonical (Part000.op_div_assign a b)) /\
  (canonical a -> _den a <> 0 -> 0 < _den a /\ gcd (abs (_num a)) (_den a) = 1).
Proof.
  pose proof (Part000Facts.api_canonical a b n d i)
    as (H1 & H2 & H3 & H4 & H5 & H6 & H7 & H8 & H9).
  repeat (split; [assumption|]).
  apply Part000Facts.canonical_nonzero_den.
Qed.

Lemma part000_interface_canonical_witness :
  canonical (Part000.op_div (mkFraction (-3) 4) (mkFraction (-9) 2)) /\
  canonical (Part000.op_Z_div 5 (mkFraction (-3) 4)) /\
  0 < _den (mkFraction (-3) 4).
Proof.
  assert (Ca : canonical (mkFraction (-3) 4)) by (split; vm_compute; discriminate).
  assert (Cb : canonical (mkFraction (-9) 2)) by (split; vm_compute; discriminate).
  destruct (part000_interface_canonical (mkFraction (-3) 4) (mkFraction (-9) 2) 0 1 5)
    as (_ & _ & _ & _ & _ & _ & _ & Hone & Htwo & Hpos).
  split; [apply (Htwo Ca Cb)|]. split; [apply (Hone Ca)|].
  apply (Hpos Ca). simpl. lia.
Defined.

(** X10 ([operator==] on canonical fractions).  On two fractions in
    canonical form with non-zero denominators, [==] of [part_000] returns
    [true] exactly when the two fractions are the same pair of fields. *)
Theorem part000_op_eq_is_equality (a b : Fraction) :
  canonical a -> canonical b -> _den a <> 0 -> _den b <> 0 ->
  (Part000.op_eq a b = true <-> a = b).
Proof.
  intros Ca Cb Ha Hb. split.
  - intros E. apply Part000Facts.op_eq_cross in E; trivial.
    destruct Ca as [Pa Ga], Cb as [Pb Gb].
    apply canonical_unique; trivial; try split; trivial; lia.
  - intros ->. apply Part000Facts.op_eq_refl.
Qed.

Lemma part000_op_eq_is_equality_witness :
  Part000.op_eq (Part000.Fraction_ctor 2 4) (Part000.Fraction_ctor (-3) (-6)) = true <->
  Part000.Fraction_ctor 2 4 = Part000.Fraction_ctor (-3) (-6).
Proof.
  apply (part000_op_eq_is_equality (Part000.Fraction_ctor 2 4)
           (Part000.Fraction_ctor (-3) (-6)));
    try (split; vm_compute; discriminate); vm_compute; discriminate.
Defined.

(** X11 (commutativity).  Addition and multiplication of fractions are
    commutative on all operands, as equalities of the stored pairs, in both
    files. *)
Theorem op_add_op_mul_commutative (a b : Fraction) :
  Part000.op_add a b = Part000.op_add b a /\
  Part000.op_mul a b = Part000.op_mul b a /\
  FractionsHpp.op_add a b = FractionsHpp.op_add b a /\
  FractionsHpp.op_mul a b = FractionsHpp.op_mul b a.
Proof.
  split; [apply op_add_comm|]. split; [apply op_mul_comm|]. split.
  - unfold FractionsHpp.op_add, FractionsHpp.op_add_args.
    rewrite (Z.eqb_sym (_den b) (_den a)).
    destruct (Z.eqb_spec (_den a) (_den b)) as [E|_].
    + now rewrite E, Z.add_comm.
    + f_equal; ring.
  - unfold FractionsHpp.op_mul, FractionsHpp.op_mul_args. f_equal; ring.
Qed.

(** X12 (associativity and distributivity in [part_000]).  On fractions
    with non-zero denominators addition is associative; on fractions in
    canonical form with non-zero denominators multiplication is associative
    and distributes over addition.  These are equalities of the stored pairs,
    not only of the values. *)
Theorem part000_ring_laws (a b c : Fraction) :
  _den a <> 0 -> _den b <> 0 -> _den c <> 0 ->
  Part000.op_add (Part000.op_add a b) c = Part000.op_add a (Part000.op_add b c) /\
  (canonical a -> canonical b -> canonical c ->
   Part000.op_mul (Part000.op_mul a b) c = Part000.op_mul a (Part000.op_mul b c) /\
   Part000.op_mul a (Part000.op_add b c) =
     Part000.op_add (Part000.op_mul a b) (Part000.op_mul a c)).
Proof.
  intros Ha Hb Hc.
  destruct (Part000Facts.op_add_value a b Ha Hb) as [Pab Vab].
  destruct (Part000Facts.op_add_value b c Hb Hc) as [Pbc Vbc].
  destruct (Part000Facts.op_mul_value a b Ha Hb) as [Mab Wab].
  destruct (Part000Facts.op_mul_value b c Hb Hc) as [Mbc Wbc].
  destruct (Part000Facts.op_mul_value a c Ha Hc) as [Mac Wac].
  split.
  - destruct (Part000Facts.op_add_value (Part000.op_add a b) c) as [P1 V1]; [lia | assumption|].
    destruct (Part000Facts.op_add_value a (Part000.op_add b c)) as [P2 V2]; [assumption | lia|].
    apply canonical_value_eq; trivial; try apply Part000Facts.op_add_canonical.
    rewrite V1, V2, Vab, Vbc. ring.
  - intros Ca Cb Cc. split.
    + destruct (Part000Facts.op_mul_value (Part000.op_mul a b) c) as [P1 V1]; [lia | assumption|].
      destruct (Part000Facts.op_mul_value a (Part000.op_mul b c)) as [P2 V2]; [assumption | lia|].
      apply canonical_value_eq; trivial.
      * apply Part000Facts.op_mul_canonical; trivial.
        now apply Part000Facts.op_mul_canonical.
      * apply Part000Facts.op_mul_canonical; trivial.
        now apply Part000Facts.op_mul_canonical.
      * rewrite V1, V2, Wab, Wbc. ring.
    + destruct (Part000Facts.op_mul_value a (Part000.op_add b c)) as [P1 V1]; [assumption | lia|].
      destruct (Part000Facts.op_add_value (Part000.op_mul a b) (Part000.op_mul a c))
        as [P2 V2]; [lia | lia|].
      apply canonical_value_eq; trivial.
      * apply Part000Facts.op_mul_canonical; trivial.
        apply Part000Facts.op_add_canonical.
      * apply Part000Facts.op_add_canonical.
      * rewrite V1, V2, Vbc, Wab, Wac. ring.
Qed.

Lemma part000_ring_laws_witness :
  let a := mkFraction 1 2 in
  let b := mkFraction (-2) 3 in
  let c := mkFraction 5 6 in
  Part000.op_add (Part000.op_add a b) c = Part000.op_add a (Part000.op_add b c) /\
  Part000.op_mul (Part000.op_mul a b) c = Part000.op_mul a (Part000.op_mul b c) /\
  Part000.op_mul a (Part000.op_add b c) =
    Part000.op_add (Part000.op_mul a b) (Part000.op_mul a c).
Proof.
  cbv zeta.
  destruct (part000_ring_laws (mkFraction 1 2) (mkFraction (-2) 3) (mkFraction 5 6))
    as [Hadd Hmul]; [simpl; lia | simpl; lia | simpl; lia |].
  split; [exact Hadd|].
  apply Hmul; split; vm_compute; discriminate.
Defined.

(** X13 (neutral and absorbing elements in [part_000]).  For [a] in
    canonical form, [a + Fraction()] is [a]; for a denominator that is not
    negative, [a * Fraction(1)] is [a]; and [a * Fraction(0)] is [0/1] when
    the denominator of [a] is not zero and [0/0] when it is. *)
Theorem part000_neutral_elements (a : Fraction) :
  (canonical a -> Part000.op_add a Part000.Fraction_default = a) /\
  (0 <= _den a -> Part000.op_mul a (Part000.Fraction_of_Z 1) = a) /\
  (_den a <> 0 ->
   Part000.op_mul a (Part000.Fraction_of_Z 0) = {| _num := 0; _den := 1 |}) /\
  (_den a = 0 ->
   Part000.op_mul a (Part000.Fraction_of_Z 0) = {| _num := 0; _den := 0 |}).
Proof.
  split; [|split; [|split]].
  - apply op_add_default.
  - intros Ha. unfold Part000.op_mul, Part000.op_mul_assign.
    cbn [Part000.Fraction_of_Z _num _den].
    rewrite ctor_one_den, (ctor_one_num _ Ha). cbn [_num _den].
    destruct a as [n d]. cbn [_num _den]. f_equal; ring.
  - intros Ha. unfold Part000.op_mul, Part000.op_mul_assign.
    cbn [Part000.Fraction_of_Z _num _den].
    rewrite ctor_one_den, (ctor_zero_num _ Ha). cbn [_num _den]. f_equal; ring.
  - intros Ha. unfold Part000.op_mul, Part000.op_mul_assign.
    cbn [Part000.Fraction_of_Z _num _den].
    rewrite ctor_one_den, Ha, Part000Facts.ctor_zero_den. cbn [_num _den Z.sgn].
    f_equal; ring.
Qed.

Lemma part000_neutral_elements_witness :
  Part000.op_add (mkFraction (-1) 0) Part000.Fraction_default = mkFraction (-1) 0 /\
  Part000.op_mul (mkFraction 3 4) (Part000.Fraction_of_Z 1) = mkFraction 3 4 /\
  Part000.op_mul (mkFraction 3 4) (Part000.Fraction_of_Z 0) = mkFraction 0 1 /\
  Part000.op_mul (mkFraction 1 0) (Part000.Fraction_of_Z 0) = mkFraction 0 0.
Proof.
  destruct (part000_neutral_elements (mkFraction (-1) 0)) as (Hadd & _).
  destruct (part000_neutral_elements (mkFraction 3 4)) as (_ & Hone & Hzero & _).
  destruct (part000_neutral_elements (mkFraction 1 0)) as (_ & _ & _ & Hinf).
  split; [apply Hadd; split; vm_compute; discriminate|].
  split; [apply Hone; simpl; lia|].
  split; [apply Hzero; simpl; lia | apply Hinf; reflexivity].
Defined.

(** X14 (a fraction minus itself).  In [part_000], [a - a] and [a + (-a)]
    are [0/1] when the denominator of [a] is not zero, and [0/0] when it
    is. *)
Theorem part000_sub_self (a : Fraction) :
  Part000.op_add a (Part000.op_neg a) = Part000.op_sub a a /\
  (_den a <> 0 -> Part000.op_sub a a = {| _num := 0; _den := 1 |}) /\
  (_den a = 0 -> Part000.op_sub a a = {| _num := 0; _den := 0 |}).
Proof.
  split; [reflexivity|].
  assert (E : Part000.op_sub a a = Part000.Fraction_ctor 0 (_den a)).
  { unfold Part000.op_sub, Part000.op_add.
    rewrite Part000Facts.op_add_args_same_den by reflexivity.
    cbn [Part000.op_neg _num]. now rewrite Z.add_opp_diag_r. }
  rewrite E. split; intros H.
  - now apply ctor_zero_num.
  - rewrite H. apply Part000Facts.ctor_zero_den.
Qed.

Lemma part000_sub_self_witness :
  Part000.op_sub (mkFraction 5 7) (mkFraction 5 7) = mkFraction 0 1 /\
  Part000.op_sub (mkFraction 1 0) (mkFraction 1 0) = mkFraction 0 0.
Proof.
  destruct (part000_sub_self (mkFraction 5 7)) as (_ & H1 & _).
  destruct (part000_sub_self (mkFraction 1 0)) as (_ & _ & H2).
  split; [apply H1; simpl; lia | apply H2; reflexivity].
Defined.

(** X15 (a fraction times its reciprocal).  In [part_000],
    [a * reciprocal(a)] and [a / a] are [1/1] when both fields of [a] are
    non-zero, and [0/0] when one of them is zero. *)
Theorem part000_mul_reciprocal (a : Fraction) :
  Part000.op_div a a = Part000.op_mul a (Part000.reciprocal a) /\
  (_num a <> 0 -> _den a <> 0 ->
   Part000.op_mul a (Part000.reciprocal a) = {| _num := 1; _den := 1 |}) /\
  (_num a = 0 \/ _den a = 0 ->
   Part000.op_mul a (Part000.reciprocal a) = {| _num := 0; _den := 0 |}).
Proof.
  split; [apply Part000Facts.op_div_eq|].
  unfold Part000.op_mul, Part000.op_mul_assign. rewrite Part000Facts.reciprocal_spec.
  split.
  - intros Hn Hd. destruct (Z.ltb_spec (_num a) 0) as [Hneg|Hpos]; cbn [_num _den].
    + rewrite Part000Facts.ctor_opp_den, Part000Facts.ctor_opp_num by assumption.
      rewrite !ctor_diag by assumption. reflexivity.
    + rewrite !ctor_diag by assumption. reflexivity.
  - intros [Hn|Hd].
    + rewrite Hn. cbn [Z.ltb Z.compare _num _den].
      rewrite Part000Facts.ctor_zero_den. cbn [_num _den Z.sgn]. reflexivity.
    + rewrite Hd. destruct (_num a <? 0); cbn [_num _den];
        rewrite ?Z.opp_0, (Part000Facts.ctor_zero_den 0); cbn [_num _den Z.sgn];
        f_equal; ring.
Qed.

Lemma part000_mul_reciprocal_witness :
  Part000.op_mul (mkFraction (-3) 4) (Part000.reciprocal (mkFraction (-3) 4)) =
    mkFraction 1 1 /\
  Part000.op_mul (mkFraction 0 1) (Part000.reciprocal (mkFraction 0 1)) =
    mkFraction 0 0.
Proof.
  destruct (part000_mul_reciprocal (mkFraction (-3) 4)) as (_ & H1 & _).
  destruct (part000_mul_reciprocal (mkFraction 0 1)) as (_ & _ & H2).
  split; [apply H1; simpl; lia | apply H2; left; reflexivity].
Defined.

(** X16 ([reciprocal()] of [part_000]).  The fields are swapped, and both
    negated when the numerator was negative, so the denominator is never
    negative afterwards; a zero numerator becomes a zero denominator and the
    other way round; canonical form is kept.  On a fraction whose denominator
    is not negative, taking the reciprocal twice gives the fraction back
    except for negative infinity ([den = 0], [num < 0]), which comes back
    with the opposite sign. *)
Theorem part000_reciprocal (a : Fraction) :
  Part000.reciprocal a =
    (if _num a <? 0 then {| _num := - _den a; _den := - _num a |}
     else {| _num := _den a; _den := _num a |}) /\
  0 <= _den (Part000.reciprocal a) /\
  (_num a = 0 -> _den (Part000.reciprocal a) = 0) /\
  (_den a = 0 -> _num (Part000.reciprocal a) = 0) /\
  (canonical a -> canonical (Part000.reciprocal a)) /\
  (0 <= _den a ->
   (Part000.reciprocal (Part000.reciprocal a) = a <-> ~ (_den a = 0 /\ _num a < 0))) /\
  (_den a = 0 -> _num a < 0 ->
   Part000.reciprocal (Part000.reciprocal a) = {| _num := - _num a; _den := 0 |}).
Proof.
  destruct (Part000Facts.reciprocal_contract a) as (H1 & H2 & H3 & H4).
  split; [exact H1|]. split; [exact H2|]. split; [exact H3|]. split; [exact H4|].
  split; [apply Part000Facts.reciprocal_canonical|].
  destruct a as [n d]. cbn [_num _den]. unfold Part000.reciprocal. cbn [_num _den].
  split.
  - intros Hd. destruct (Z.ltb_spec n 0) as [Hn|Hn]; cbn [_num _den].
    + destruct (Z.ltb_spec (- d) 0) as [Hd'|Hd']; cbn [_num _den].
      * rewrite !Z.opp_involutive. split; [lia | reflexivity].
      * split; [intros E; inversion E; lia | intros H; exfalso; apply H; lia].
    + destruct (Z.ltb_spec d 0); [lia|]. split; [lia | reflexivity].
  - intros -> Hn. destruct (Z.ltb_spec n 0); [|lia]. cbn [_num _den]. reflexivity.
Qed.

Lemma part000_reciprocal_witness :
  canonical (Part000.reciprocal (mkFraction (-3) 4)) /\
  Part000.reciprocal (Part000.reciprocal (mkFraction (-3) 4)) = mkFraction (-3) 4 /\
  Part000.reciprocal (Part000.reciprocal (mkFraction (-1) 0)) = mkFraction 1 0.
Proof.
  destruct (part000_reciprocal (mkFraction (-3) 4)) as (_ & _ & _ & _ & Hc & Hinv & _).
  destruct (part000_reciprocal (mkFraction (-1) 0)) as (_ & _ & _ & _ & _ & _ & Hneg).
  split; [apply Hc; split; vm_compute; discriminate|].
  split; [apply Hinv; simpl; lia | apply Hneg; simpl; lia].
Defined.

(** X17 (division by zero in [part_000]).  Dividing by the integer [0] or by
    [Fraction(0)] does not fail: it returns the sign of the numerator over
    the denominator [0] (signed infinity, or [0/0] for a zero numerator); for
    the fraction divisor the denominator of the dividend must not be
    negative. *)
Theorem part000_division_by_zero (a : Fraction) (i : Z) :
  Part000.op_div_Z a 0 = {| _num := Z.sgn (_num a); _den := 0 |} /\
  (0 <= _den a ->
   Part000.op_div a (Part000.Fraction_of_Z 0) = {| _num := Z.sgn (_num a); _den := 0 |}) /\
  Part000.op_Z_div i (Part000.Fraction_of_Z 0) = {| _num := Z.sgn i; _den := 0 |}.
Proof.
  split; [|split].
  - unfold Part000.op_div_Z, Part000.op_div_assign_Z.
    rewrite Part000Facts.ctor_zero_den. cbn [_num _den]. f_equal. ring.
  - intros Ha. rewrite <- op_div_of_Z by exact Ha.
    unfold Part000.op_div_assign_Z.
    rewrite Part000Facts.ctor_zero_den. cbn [_num _den]. f_equal. ring.
  - unfold Part000.op_Z_div, Part000.op_mul_assign_Z.
    cbn [Part000.reciprocal Part000.Fraction_of_Z _num _den Z.ltb Z.compare].
    rewrite Part000Facts.ctor_zero_den. cbn [_num _den]. f_equal. ring.
Qed.

Lemma part000_division_by_zero_witness :
  Part000.op_div (mkFraction (-3) 4) (Part000.Fraction_of_Z 0) = mkFraction (-1) 0.
Proof.
  apply (part000_division_by_zero (mkFraction (-3) 4) 0). simpl. lia.
Defined.

(** X18 (operators with an integer operand in [part_000]).  Adding,
    subtracting, multiplying or dividing by an integer [i], on either side,
    returns the same fraction as the operator on fractions applied to
    [Fraction(i)]; for addition and subtraction the fraction must be in
    canonical form, and for division by [i] its denominator must not be
    negative. *)
Theorem part000_integer_operands (f : Fraction) (i : Z) :
  (canonical f ->
   Part000.op_add_Z f i = Part000.op_add f (Part000.Fraction_of_Z i) /\
   Part000.op_Z_add i f = Part000.op_add (Part000.Fraction_of_Z i) f /\
   Part000.op_sub_Z f i = Part000.op_sub f (Part000.Fraction_of_Z i) /\
   Part000.op_Z_sub i f = Part000.op_sub (Part000.Fraction_of_Z i) f /\
   Part000.op_add_assign_Z f i = Part000.op_add_assign f (Part000.Fraction_of_Z i) /\
   Part000.op_sub_assign_Z f i = Part000.op_sub_assign f (Part000.Fraction_of_Z i)) /\
  Part000.op_mul_Z f i = Part000.op_mul f (Part000.Fraction_of_Z i) /\
  Part000.op_Z_mul i f = Part000.op_mul (Part000.Fraction_of_Z i) f /\
  Part000.op_Z_div i f = Part000.op_div (Part000.Fraction_of_Z i) f /\
  (0 <= _den f ->
   Part000.op_div_Z f i = Part000.op_div f (Part000.Fraction_of_Z i)).
Proof.
  split; [|split; [|split; [|split]]].
  - intros Cf.
    unfold Part000.op_add_Z, Part000.op_Z_add, Part000.op_sub_Z, Part000.op_Z_sub,
      Part000.op_sub_assign_Z, Part000.op_sub_assign, Part000.op_sub,
      Part000.op_add_Z, Part000.op_Z_add.
    rewrite Part000Facts.op_add_assign_eq.
    rewrite (op_add_comm (Part000.Fraction_of_Z i)).
    rewrite !op_add_of_Z by (trivial; now apply Part000Facts.op_neg_canonical).
    repeat split. apply op_add_comm.
  - apply op_mul_of_Z.
  - unfold Part000.op_Z_mul. rewrite op_mul_of_Z. apply op_mul_comm.
  - unfold Part000.op_Z_div. rewrite op_mul_of_Z, op_mul_comm.
    symmetry. apply Part000Facts.op_div_eq.
  - apply op_div_of_Z.
Qed.

Lemma part000_integer_operands_witness :
  Part000.op_add_Z (mkFraction 1 2) 1 =
    Part000.op_add (mkFraction 1 2) (Part000.Fraction_of_Z 1) /\
  Part000.op_div_Z (mkFraction 1 2) (-3) =
    Part000.op_div (mkFraction 1 2) (Part000.Fraction_of_Z (-3)).
Proof.
  destruct (part000_integer_operands (mkFraction 1 2) 1) as (Hadd & _).
  destruct (part000_integer_operands (mkFraction 1 2) (-3)) as (_ & _ & _ & _ & Hdiv).
  split; [apply Hadd; split; vm_compute; discriminate | apply Hdiv; simpl; lia].
Defined.

(** X19 ([cross]).  [cross] is antisymmetric; it is zero exactly when
    [operator==] of [part_000] holds, for non-zero denominators; and for
    positive denominators it is negative exactly when [a < b] and positive
    exactly when [a > b]. *)
Theorem part000_cross (a b : Fraction) :
  Part000.cross a b = - Part000.cross b a /\
  (_den a <> 0 -> _den b <> 0 ->
   (Part000.cross a b = 0 <-> Part000.op_eq a b = true)) /\
  (0 < _den a -> 0 < _den b ->
   (Part000.cross a b < 0 <-> Part000.op_lt a b = true) /\
   (0 < Part000.cross a b <-> Part000.op_gt a b = true)).
Proof.
  unfold Part000.cross. split; [ring|]. split.
  - intros Ha Hb. rewrite (Part000Facts.op_eq_cross a b Ha Hb). lia.
  - intros Ha Hb. unfold Part000.op_gt. rewrite !op_lt_iff.
    destruct (Z.eq_dec (_den a) (_den b)) as [E|N],
             (Z.eq_dec (_den b) (_den a)) as [E'|N']; try congruence.
    + rewrite E. split; nia.
    + split; lia.
Qed.

Lemma part000_cross_witness :
  (Part000.cross (mkFraction 1 2) (mkFraction 2 4) = 0 <->
   Part000.op_eq (mkFraction 1 2) (mkFraction 2 4) = true) /\
  (Part000.cross (mkFraction 1 2) (mkFraction 2 3) < 0 <->
   Part000.op_lt (mkFraction 1 2) (mkFraction 2 3) = true).
Proof.
  destruct (part000_cross (mkFraction 1 2) (mkFraction 2 4)) as (_ & Heq & _).
  destruct (part000_cross (mkFraction 1 2) (mkFraction 2 3)) as (_ & _ & Hlt).
  split; [apply Heq; simpl; lia | apply Hlt; simpl; lia].
Defined.


(** X21 (integer [*=] and [/=] of [fractions.hpp]).  When its denominator is
    not negative and the operator does not divide by zero, [f *= i] returns
    what [part_000] returns; [f /= i] does so for a positive [i]; but for a
    negative [i] and a positive denominator [f /= i] leaves a negative
    denominator. *)
Theorem hpp_integer_mul_div (f : Fraction) (i : Z) :
  (0 <= _den f -> ~ (i = 0 /\ _den f = 0) ->
   FractionsHpp.op_mul_assign_Z f i = Some (Part000.op_mul_assign_Z f i)) /\
  (0 < i ->
   FractionsHpp.op_div_assign_Z f i = Some (Part000.op_div_assign_Z f i)) /\
  (i < 0 -> 0 < _den f ->
   exists r, FractionsHpp.op_div_assign_Z f i = Some r /\ _den r < 0).
Proof.
  split; [|split].
  - intros Hd Hnz. unfold FractionsHpp.op_mul_assign_Z, Part000.op_mul_assign_Z, checked_quot.
    rewrite (Part000Facts.ctor_reduced i (_den f) Hd), gcd_spec. cbn [_num _den].
    assert (Hg : Z.gcd i (_den f) <> 0).
    { intros E. apply Hnz. split; [eapply Z.gcd_eq_0_l | eapply Z.gcd_eq_0_r]; eassumption. }
    destruct (Z.eqb_spec (Z.gcd i (_den f)) 1) as [E|_].
    + now rewrite E, !Z.quot_1_r.
    + destruct (Z.eqb_spec (Z.gcd i (_den f)) 0); [contradiction | reflexivity].
  - intros Hi. unfold FractionsHpp.op_div_assign_Z, Part000.op_div_assign_Z, checked_quot.
    rewrite (Part000Facts.ctor_reduced (_num f) i) by lia. rewrite gcd_spec. cbn [_num _den].
    assert (Hg : Z.gcd (_num f) i <> 0).
    { intros E. apply Z.gcd_eq_0_r in E. lia. }
    destruct (Z.eqb_spec (Z.gcd (_num f) i) 1) as [E|_].
    + now rewrite E, !Z.quot_1_r.
    + destruct (Z.eqb_spec (Z.gcd (_num f) i) 0); [contradiction | reflexivity].
  - intros Hi Hd. unfold FractionsHpp.op_div_assign_Z, checked_quot. rewrite gcd_spec.
    assert (Hg : Z.gcd (_num f) i <> 0).
    { intros E. apply Z.gcd_eq_0_r in E. lia. }
    pose proof (Z.gcd_nonneg (_num f) i) as Hpos.
    destruct (Z.eqb_spec (Z.gcd (_num f) i) 1) as [E|_].
    + eexists. split; [reflexivity|]. cbn [_den]. nia.
    + destruct (Z.eqb_spec (Z.gcd (_num f) i) 0); [contradiction|].
      eexists. split; [reflexivity|]. cbn [_den].
      destruct (quot_gcd_factors (_num f) i Hg) as (_ & Ei & _).
      remember (i ÷ Z.gcd (_num f) i) as q. nia.
Qed.

Lemma hpp_integer_mul_div_witness :
  FractionsHpp.op_mul_assign_Z (mkFraction 3 4) 6 =
    Some (Part000.op_mul_assign_Z (mkFraction 3 4) 6) /\
  FractionsHpp.op_div_assign_Z (mkFraction 6 5) 4 =
    Some (Part000.op_div_assign_Z (mkFraction 6 5) 4) /\
  (exists r, FractionsHpp.op_div_assign_Z (mkFraction 1 2) (-3) = Some r /\ _den r < 0).
Proof.
  destruct (hpp_integer_mul_div (mkFraction 3 4) 6) as (Hmul & _).
  destruct (hpp_integer_mul_div (mkFraction 6 5) 4) as (_ & Hdiv & _).
  destruct (hpp_integer_mul_div (mkFraction 1 2) (-3)) as (_ & _ & Hneg).
  split; [apply Hmul; simpl; lia|]. split; [apply Hdiv; lia | apply Hneg; simpl; lia].
Defined.

(** X22 (the two files agree on canonical operands).  On operands in
    canonical form [fractions.hpp] returns the same fraction as [part_000]
    for [+], [-], [*], for adding an integer, and for [/] when the numerator of
    the divisor is not negative. *)
Theorem variants_agree_on_canonical (a b : Fraction) (i : Z) :
  canonical a -> canonical b ->
  FractionsHpp.op_add a b = Part000.op_add a b /\
  FractionsHpp.op_sub a b = Part000.op_sub a b /\
  FractionsHpp.op_mul a b = Part000.op_mul a b /\
  FractionsHpp.op_add_Z a i = Part000.op_add_Z a i /\
  (0 <= _num b -> FractionsHpp.op_div a b = Part000.op_div a b).
Proof.
  intros Ca Cb.
  split; [now apply FractionsHppFacts.hpp_op_add_eq|].
  split; [apply FractionsHppFacts.hpp_op_add_eq; trivial;
          now apply Part000Facts.op_neg_canonical|].
  split; [now apply FractionsHppFacts.hpp_op_mul_eq|]. split.
  - unfold FractionsHpp.op_add_Z, Part000.op_add_Z, Part000.op_add_assign_Z.
    pose proof Ca as [Pa _]. rewrite FractionsHppFacts.hpp_ctor_nonneg by exact Pa.
    destruct (Z.eqb_spec i 0) as [->|_].
    + rewrite Z.mul_0_r, Z.add_0_r. destruct a as [n d].
      apply (Part000Facts.normalize_id {| _num := n; _den := d |} Ca).
    + destruct (Z.eqb_spec (_den a) 1) as [E|_]; [|reflexivity].
      rewrite E, Z.mul_1_l. apply ctor_one_den.
  - intros Hb. rewrite Part000Facts.op_div_eq. unfold FractionsHpp.op_div.
    assert (E : FractionsHpp.reciprocal b = Part000.reciprocal b).
    { rewrite Part000Facts.reciprocal_spec.
      destruct (Z.ltb_spec (_num b) 0); [lia | reflexivity]. }
    rewrite E. apply FractionsHppFacts.hpp_op_mul_eq; trivial.
    now apply Part000Facts.reciprocal_canonical.
Qed.

Lemma variants_agree_on_canonical_witness :
  FractionsHpp.op_sub (mkFraction 1 2) (mkFraction 2 3) =
    Part000.op_sub (mkFraction 1 2) (mkFraction 2 3) /\
  FractionsHpp.op_div (mkFraction 1 2) (mkFraction 2 3) =
    Part000.op_div (mkFraction 1 2) (mkFraction 2 3).
Proof.
  assert (Ca : canonical (mkFraction 1 2)) by (split; vm_compute; discriminate).
  assert (Cb : canonical (mkFraction 2 3)) by (split; vm_compute; discriminate).
  destruct (variants_agree_on_canonical (mkFraction 1 2) (mkFraction 2 3) 0 Ca Cb)
    as (_ & Hsub & _ & _ & Hdiv).
  split; [exact Hsub | apply Hdiv; simpl; lia].
Defined.

(** X23 (the arithmetic of [part_000] is exact).  Negation negates the
    value; with non-zero denominators subtraction returns the difference of
    the values, and division by a fraction with a non-zero numerator returns
    their quotient, both with a positive denominator; the reciprocal of a
    fraction with both fields non-zero has the inverse value. *)
Theorem part000_arithmetic_exact (a b : Fraction) :
  (value (Part000.op_neg a) == - value a)%Q /\
  (_den a <> 0 -> _den b <> 0 ->
   0 < _den (Part000.op_sub a b) /\
   (value (Part000.op_sub a b) == value a - value b)%Q) /\
  (_den a <> 0 -> _den b <> 0 -> _num b <> 0 ->
   0 < _den (Part000.op_div a b) /\
   (value (Part000.op_div a b) == value a / value b)%Q) /\
  (_num a <> 0 -> _den a <> 0 ->
   (value (Part000.reciprocal a) == / value a)%Q).
Proof.
  split; [apply Part000Facts.op_neg_value|].
  split; [apply Part000Facts.op_sub_value|].
  split; [|apply reciprocal_value].
  intros Ha Hb Hn. rewrite Part000Facts.op_div_eq.
  assert (Hr : _den (Part000.reciprocal b) <> 0).
  { rewrite Part000Facts.reciprocal_spec.
    destruct (_num b <? 0); cbn [_den]; lia. }
  destruct (Part000Facts.op_mul_value a (Part000.reciprocal b) Ha Hr) as [P V].
  split; [exact P|]. rewrite V, (reciprocal_value b Hn Hb). reflexivity.
Qed.

Lemma part000_arithmetic_exact_witness :
  (value (Part000.op_sub (mkFraction 1 2) (mkFraction (-2) 3)) ==
   value (mkFraction 1 2) - value (mkFraction (-2) 3))%Q /\
  (value (Part000.op_div (mkFraction 1 2) (mkFraction (-2) 3)) ==
   value (mkFraction 1 2) / value (mkFraction (-2) 3))%Q /\
  (value (Part000.reciprocal (mkFraction (-2) 3)) == / value (mkFraction (-2) 3))%Q.
Proof.
  destruct (part000_arithmetic_exact (mkFraction 1 2) (mkFraction (-2) 3))
    as (_ & Hsub & Hdiv & _).
  destruct (part000_arithmetic_exact (mkFraction (-2) 3) (mkFraction 1 2))
    as (_ & _ & _ & Hrec).
  split; [apply Hsub; simpl; lia|].
  split; [apply Hdiv; simpl; lia | apply Hrec; simpl; lia].
Defined.

(** X24 (multiplication in [part_000]).  For operands in canonical form,
    [a * b] divides [a.num] and [b.den] by their greatest common divisor and
    [b.num] and [a.den] by theirs, multiplies what is left, and the product is
    in canonical form and, for non-zero denominators, stands for the product
    of the values. *)
Theorem part000_multiplication (a b : Fraction) :
  canonical a -> canonical b ->
  let g1 := gcd (_num a) (_den b) in
  let g2 := gcd (_num b) (_den a) in
  Part000.op_mul a b =
    {| _num := (_num a ÷ g1) * (_num b ÷ g2);
       _den := (_den b ÷ g1) * (_den a ÷ g2) |} /\
  canonical (Part000.op_mul a b) /\
  (_den a <> 0 -> _den b <> 0 ->
   0 < _den (Part000.op_mul a b) /\
   (value (Part000.op_mul a b) == value a * value b)%Q).
Proof.
  intros Ca Cb g1 g2.
  destruct (Part000Facts.op_mul_contract a b Ca Cb) as (_ & _ & H3 & H4 & _ & H6).
  split; [exact H3|]. split; [exact H4 | exact H6].
Qed.

Lemma part000_multiplication_witness :
  Part000.op_mul (mkFraction 3 4) (mkFraction (-2) 9) =
    mkFraction ((3 ÷ gcd 3 9) * (-2 ÷ gcd (-2) 4)) ((9 ÷ gcd 3 9) * (4 ÷ gcd (-2) 4)) /\
  (value (Part000.op_mul (mkFraction 3 4) (mkFraction (-2) 9)) ==
   value (mkFraction 3 4) * value (mkFraction (-2) 9))%Q.
Proof.
  assert (Ca : canonical (mkFraction 3 4)) by (split; vm_compute; discriminate).
  assert (Cb : canonical (mkFraction (-2) 9)) by (split; vm_compute; discriminate).
  destruct (part000_multiplication (mkFraction 3 4) (mkFraction (-2) 9) Ca Cb)
    as (Hred & _ & Hval).
  split; [exact Hred | apply Hval; simpl; lia].
Defined.

(** X25 (infinities in [part_000]).  For [a] in canonical form with a zero
    denominator and [b] in canonical form with a positive denominator, [a + b]
    and [b + a] are [a], and [a * b] has a zero denominator and the numerator
    [a.num * sgn b.num]: an infinity keeps or flips its sign, and becomes
    [0/0] when [b] is zero. *)
Theorem part000_infinity (a b : Fraction) :
  canonical a -> canonical b -> _den a = 0 -> 0 < _den b ->
  Part000.op_add a b = a /\
  Part000.op_add b a = a /\
  Part000.op_mul a b = {| _num := _num a * Z.sgn (_num b); _den := 0 |}.
Proof.
  intros Ca Cb Ea Hb.
  split; [now apply Part000Facts.op_add_zero_den_l|].
  split; [now apply Part000Facts.op_add_zero_den_r|].
  unfold Part000.op_mul, Part000.op_mul_assign.
  rewrite Ea, Part000Facts.ctor_zero_den. cbn [_num _den].
  pose proof (Part000Facts.canonical_zero_den_num a Ca Ea) as Hs.
  assert (En : _num (Part000.Fraction_ctor (_num a) (_den b)) = _num a).
  { destruct (Z.eq_dec (_num a) 0) as [E0|N0].
    - rewrite E0. now apply Part000Facts.ctor_num_eq_0.
    - unfold Part000.Fraction_ctor. rewrite Part000Facts.normalize_id; [reflexivity|].
      split; cbn [_num _den]; [lia|].
      assert (Z.abs (_num a) = 1) as H1 by lia.
      rewrite <- Z.gcd_abs_l, H1, Z.gcd_1_l. lia. }
  rewrite En. f_equal. ring.
Qed.

Lemma part000_infinity_witness :
  Part000.op_add (mkFraction (-1) 0) (mkFraction 2 3) = mkFraction (-1) 0 /\
  Part000.op_mul (mkFraction (-1) 0) (mkFraction (-2) 3) = mkFraction (-1 * Z.sgn (-2)) 0.
Proof.
  assert (Ca : canonical (mkFraction (-1) 0)) by (split; vm_compute; discriminate).
  assert (Cb : canonical (mkFraction 2 3)) by (split; vm_compute; discriminate).
  assert (Cc : canonical (mkFraction (-2) 3)) by (split; vm_compute; discriminate).
  split.
  - apply (part000_infinity (mkFraction (-1) 0) (mkFraction 2 3) Ca Cb);
      [reflexivity | simpl; lia].
  - apply (part000_infinity (mkFraction (-1) 0) (mkFraction (-2) 3) Ca Cc);
      [reflexivity | simpl; lia].
Defined.
